(** * An addressable binary min-heap (minheap.c): model and properties

    The heap of minheap.c is an array of (priority, id) nodes in binary-heap
    order, positions 1..size, together with an index map from node id to
    the position of that node.  This file embeds the C functions as Rocq
    functions over an explicit heap state and proves the properties of
    the heap's specification about them.

    Modelling choices:
    - [int] values are integers of [Z], 32 bits wide; an arithmetic
      operation whose result does not fit an [int] is undefined behaviour
      in C and is the outcome [Undefined] here ([int_of]).  Only the
      doubling in leftIdx and rightIdx can overflow in a well-formed heap,
      and only at a position from 2^30 on: the theorems in which
      bubbleDown moves a node down the tree take heaps of a capacity
      below 2^30, where that cannot happen.
    - the heap is passed by value and returned: [MinHeap*] arguments are
      taken to be valid, non-null pointers to distinct heaps.
    - the two malloc'ed arrays are lists of fixed length; a read or write
      outside of an array is undefined behaviour in C and is the outcome
      [Undefined] here.
    - the recursion of bubbleUp and the loop of bubbleDown are run on fuel;
      running out of it is the outcome [OutOfFuel].  bubbleUp never runs
      out of the fuel it is given, in any state; bubbleDown does not on a
      well-formed heap with a consistent index map.
    - what printHeap prints is the list of the strings that its calls of
      printf write, in order.
    deleteHeap only frees the storage and is not modelled. *)

From Stdlib Require Import ZArith Lia Bool.
From stdpp Require Import list sorting strings pretty.

Local Open Scope Z_scope.

Module Heap.

(** ** Outcomes of a C function call *)

Inductive result (A : Type) : Type :=
  | Ok (a : A)
  | Undefined
  | OutOfFuel.

Arguments Ok {A} a.
Arguments Undefined {A}.
Arguments OutOfFuel {A}.

Definition bind {A B : Type} (c : result A) (k : A -> result B) : result B :=
  match c with
  | Ok a => k a
  | Undefined => Undefined
  | OutOfFuel => OutOfFuel
  end.

Notation "'do' x <- c ;; k" := (bind c (fun x => k))
  (at level 10, x name, c at level 99, k at level 200,
   format "'[v' 'do'  x  <-  c  ;;  '/' k ']'").

(** ** Machine integers *)

Definition INT_MIN : Z := -2147483648.
Definition INT_MAX : Z := 2147483647.

Definition in_int (z : Z) : Prop := INT_MIN <= z <= INT_MAX.

(** The result [z] of an arithmetic operation on [int]s, as an [int]. *)
Definition int_of (z : Z) : result Z :=
  if (INT_MIN <=? z) && (z <=? INT_MAX) then Ok z else Undefined.

(** ** Memory: arrays as lists *)

Definition load {A : Type} (mem : list A) (i : Z) : result A :=
  if 0 <=? i then
    match mem !! Z.to_nat i with
    | Some x => Ok x
    | None => Undefined
    end
  else Undefined.

Definition store {A : Type} (mem : list A) (i : Z) (x : A) : result (list A) :=
  if (0 <=? i) && (i <? Z.of_nat (length mem)) then Ok (<[Z.to_nat i := x]> mem)
  else Undefined.

(** ** Data model *)

(** Modelled from the spec: the declarations of [HeapNode] and [MinHeap]
    are in minheap.h, which is not among the sources; the fields are the
    ones minheap.c reads and writes. *)
Record HeapNode : Type := mkNode { priority : Z; id : Z }.

Record MinHeap : Type := mkHeap {
  size : Z;
  capacity : Z;
  arr : list HeapNode;
  indexMap : list Z
}.

Definition ROOT_INDEX : Z := 1.
Definition NOTHING : Z := -1.

(* heap->arr[i] = x *)
Definition set_arr (heap : MinHeap) (i : Z) (x : HeapNode) : result MinHeap :=
  do a <- store (arr heap) i x ;;
  Ok (mkHeap (size heap) (capacity heap) a (indexMap heap)).

(* heap->indexMap[i] = x *)
Definition set_indexMap (heap : MinHeap) (i : Z) (x : Z) : result MinHeap :=
  do m <- store (indexMap heap) i x ;;
  Ok (mkHeap (size heap) (capacity heap) (arr heap) m).

(* heap->size = x *)
Definition set_size (heap : MinHeap) (x : Z) : MinHeap :=
  mkHeap x (capacity heap) (arr heap) (indexMap heap).

(** ** Helper functions of minheap.c *)

Definition isValidIndex (heap : MinHeap) (maybeIdx : Z) : bool :=
  (maybeIdx >=? ROOT_INDEX) && (maybeIdx <=? size heap).

Definition nodeAt (heap : MinHeap) (nodeIndex : Z) : result HeapNode :=
  load (arr heap) nodeIndex.

Definition priorityAt (heap : MinHeap) (nodeIndex : Z) : result Z :=
  do n <- load (arr heap) nodeIndex ;; Ok (priority n).

Definition idAt (heap : MinHeap) (nodeIndex : Z) : result Z :=
  do n <- load (arr heap) nodeIndex ;; Ok (id n).

Definition indexOf (heap : MinHeap) (id : Z) : result Z :=
  load (indexMap heap) id.

Definition leftIdx (heap : MinHeap) (nodeIndex : Z) : result Z :=
  if negb (isValidIndex heap nodeIndex) then Ok NOTHING
  else
    do left <- int_of (2 * nodeIndex) ;;
    Ok (if isValidIndex heap left then left else NOTHING).

Definition rightIdx (heap : MinHeap) (nodeIndex : Z) : result Z :=
  if negb (isValidIndex heap nodeIndex) then Ok NOTHING
  else
    do twice <- int_of (2 * nodeIndex) ;;
    do right <- int_of (twice + 1) ;;
    Ok (if isValidIndex heap right then right else NOTHING).

Definition parentIdx (heap : MinHeap) (nodeIndex : Z) : Z :=
  if (nodeIndex =? 1) || negb (isValidIndex heap nodeIndex) then NOTHING
  else Z.quot nodeIndex 2.

Definition swap (heap : MinHeap) (index1 index2 : Z) : result MinHeap :=
  if isValidIndex heap index1 && isValidIndex heap index2 then
    do temp <- nodeAt heap index1 ;;
    do id1 <- idAt heap index1 ;;
    do heap <- set_indexMap heap id1 index2 ;;
    do id2 <- idAt heap index2 ;;
    do heap <- set_indexMap heap id2 index1 ;;
    do node2 <- nodeAt heap index2 ;;
    do heap <- set_arr heap index1 node2 ;;
    set_arr heap index2 temp
  else Ok heap.

(** bubbleUp calls itself on the position the index map gives for the
    node it has just moved; [fuel] bounds the depth of the recursion. *)
Fixpoint bubbleUp_rec (fuel : nat) (heap : MinHeap) (nodeIndex : Z)
  : result MinHeap :=
  match fuel with
  | O => OutOfFuel
  | S fuel' =>
      if size heap =? 0 then Ok heap
      else
        let parent := parentIdx heap nodeIndex in
        if parent =? NOTHING then Ok heap
        else
          do id <- idAt heap nodeIndex ;;
          do pp <- priorityAt heap parent ;;
          do pn <- priorityAt heap nodeIndex ;;
          if pp >? pn then
            do heap' <- swap heap parent nodeIndex ;;
            do nodeIndex' <- indexOf heap' id ;;
            bubbleUp_rec fuel' heap' nodeIndex'
          else Ok heap
  end.

Definition bubbleUp (heap : MinHeap) (nodeIndex : Z) : result MinHeap :=
  bubbleUp_rec (S (Z.to_nat nodeIndex)) heap nodeIndex.

(** One pass through the body of the while loop of bubbleDown:
    [None] is the [break], [Some heap'] the heap after the swap. *)
Definition bubbleDown_body (heap : MinHeap) (id left right : Z)
  : result (option MinHeap) :=
  do pos <- indexOf heap id ;;
  do priority <- priorityAt heap pos ;;
  do priorityLeft <- priorityAt heap left ;;
  if right =? NOTHING then
    if priority >? priorityLeft then
      do pos <- indexOf heap id ;;
      do heap' <- swap heap pos left ;; Ok (Some heap')
    else Ok None
  else
    do priorityRight <- priorityAt heap right ;;
    if (priority >? priorityLeft) && (priority >? priorityRight) then
      if priorityLeft <? priorityRight then
        do pos <- indexOf heap id ;;
        do heap' <- swap heap pos left ;; Ok (Some heap')
      else
        do pos <- indexOf heap id ;;
        do heap' <- swap heap pos right ;; Ok (Some heap')
    else if priority >? priorityLeft then
      do pos <- indexOf heap id ;;
      do heap' <- swap heap pos left ;; Ok (Some heap')
    else if priority >? priorityRight then
      do pos <- indexOf heap id ;;
      do heap' <- swap heap pos right ;; Ok (Some heap')
    else Ok None.

Fixpoint bubbleDown_loop (fuel : nat) (heap : MinHeap) (id left right : Z)
  : result MinHeap :=
  if left =? NOTHING then Ok heap
  else
    match fuel with
    | O => OutOfFuel
    | S fuel' =>
        do r <- bubbleDown_body heap id left right ;;
        match r with
        | None => Ok heap
        | Some heap' =>
            do pos <- indexOf heap' id ;;
            do left' <- leftIdx heap' pos ;;
            do pos <- indexOf heap' id ;;
            do right' <- rightIdx heap' pos ;;
            bubbleDown_loop fuel' heap' id left' right'
        end
    end.

Definition bubbleDown (heap : MinHeap) : result MinHeap :=
  if size heap >? 0 then
    do id <- idAt heap ROOT_INDEX ;;
    do left <- leftIdx heap ROOT_INDEX ;;
    do right <- rightIdx heap ROOT_INDEX ;;
    bubbleDown_loop (Z.to_nat (size heap)) heap id left right
  else Ok heap.

(** ** Required functions of minheap.c *)

Definition getMin (heap : MinHeap) : result HeapNode :=
  load (arr heap) ROOT_INDEX.

Definition extractMin (heap : MinHeap) : result (HeapNode * MinHeap) :=
  do heap <- swap heap ROOT_INDEX (size heap) ;;
  do save <- nodeAt heap (size heap) ;;
  do last <- idAt heap (size heap) ;;
  do heap <- set_indexMap heap last 0 ;;
  do less <- int_of (size heap - 1) ;;
  let heap := set_size heap less in
  do heap <- bubbleDown heap ;;
  Ok (save, heap).

Definition insert (heap : MinHeap) (priority id : Z) : result MinHeap :=
  let newNode := mkNode priority id in
  do next <- int_of (size heap + 1) ;;
  do heap <- set_arr heap next newNode ;;
  do next <- int_of (size heap + 1) ;;
  do heap <- set_indexMap heap id next ;;
  do more <- int_of (size heap + 1) ;;
  let heap := set_size heap more in
  bubbleUp heap (size heap).

(** The body of decreasePriority in minheap.c is [return false;]. *)
Definition decreasePriority (heap : MinHeap) (id newPriority : Z)
  : result (bool * MinHeap) :=
  Ok (false, heap).

(** newHeap: malloc does not initialise the storage it returns, so the
    contents of the two arrays are whatever the allocator hands out;
    they are arguments here.  [allocated] says that both calls of malloc
    succeeded: there are [capacity + 1] node slots, a number that fits an
    [int], and [capacity] index-map slots. *)
Definition newHeap (capacity : Z) (arr_mem : list HeapNode) (map_mem : list Z)
  : MinHeap :=
  mkHeap 0 capacity arr_mem map_mem.

Definition allocated (capacity : Z) (arr_mem : list HeapNode) (map_mem : list Z)
  : Prop :=
  0 <= capacity < INT_MAX /\
  Z.of_nat (length arr_mem) = capacity + 1 /\
  Z.of_nat (length map_mem) = capacity.

(** ** Vocabulary of the specification *)

(** Total readers of the two arrays, for stating properties. *)
Definition node (h : MinHeap) (p : Z) : HeapNode :=
  match nodeAt h p with Ok n => n | _ => mkNode 0 0 end.

Definition pos (h : MinHeap) (k : Z) : Z :=
  match indexOf h k with Ok i => i | _ => 0 end.

Definition prio (h : MinHeap) (p : Z) : Z := priority (node h p).

(** The storage is the one newHeap allocated and [size] is within it. *)
Definition wf (h : MinHeap) : Prop :=
  0 <= size h <= capacity h /\
  capacity h < INT_MAX /\
  Z.of_nat (length (arr h)) = capacity h + 1 /\
  Z.of_nat (length (indexMap h)) = capacity h.

(** I1, on the total readers. *)
Definition heap_ordered (h : MinHeap) : Prop :=
  forall p, 1 < p <= size h -> prio h (p / 2) <= prio h p.

(** I3, on the total readers: the id of a live node is a legal id and
    the index map sends it back to the node's position. *)
Definition index_consistent (h : MinHeap) : Prop :=
  forall p, 1 <= p <= size h ->
    0 <= id (node h p) < capacity h /\ pos h (id (node h p)) = p.

(** The live nodes, from position 1 to position [size]. *)
Definition live_nodes (h : MinHeap) : list HeapNode :=
  node h <$> seqZ 1 (size h).

(** [h'] holds the same live nodes as [h], possibly at other positions,
    and its index map differs from the one of [h] only at their ids. *)
Definition rearranged (h h' : MinHeap) : Prop :=
  size h' = size h /\
  capacity h' = capacity h /\
  length (arr h') = length (arr h) /\
  length (indexMap h') = length (indexMap h) /\
  live_nodes h' ≡ₚ live_nodes h /\
  (forall k, (forall p, 1 <= p <= size h -> id (node h p) <> k) ->
     pos h' k = pos h k).

(** The exchange of positions [i] and [j]. *)
Definition transpose (i j p : Z) : Z :=
  if p =? j then i else if p =? i then j else p.

(** What [swap h i j] does to a well-formed heap, position by position. *)
Definition swapped (h : MinHeap) (i j : Z) (h' : MinHeap) : Prop :=
  size h' = size h /\
  capacity h' = capacity h /\
  length (arr h') = length (arr h) /\
  length (indexMap h') = length (indexMap h) /\
  (forall p, node h' p =
     if p =? j then node h i else if p =? i then node h j else node h p) /\
  (forall k, pos h' k =
     if k =? id (node h j) then i
     else if k =? id (node h i) then j else pos h k).

(** Heap order everywhere except between position [k] and its parent;
    the children of [k] are already above the parent of [k]. *)
Definition up_inv (h : MinHeap) (k : Z) : Prop :=
  (forall p, 1 < p <= size h -> p <> k -> prio h (p / 2) <= prio h p) /\
  (forall c, 1 < k -> 1 < c <= size h -> c / 2 = k ->
     prio h (k / 2) <= prio h c).

(** Heap order everywhere except between position [k] and its children;
    the children of [k] are already above the parent of [k]. *)
Definition down_inv (h : MinHeap) (k : Z) : Prop :=
  (forall p, 1 < p <= size h -> p / 2 <> k -> prio h (p / 2) <= prio h p) /\
  (forall c, 1 < k -> 1 < c <= size h -> c / 2 = k ->
     prio h (k / 2) <= prio h c).

(** The positions of the children of position [k], NOTHING when [k] has
    no such child: what leftIdx and rightIdx return when no doubling
    overflows. *)
Definition left_pos (h : MinHeap) (k : Z) : Z :=
  if 2 * k <=? size h then 2 * k else NOTHING.

Definition right_pos (h : MinHeap) (k : Z) : Z :=
  if 2 * k + 1 <=? size h then 2 * k + 1 else NOTHING.

(** The child that the loop of bubbleDown exchanges the node at position
    [k] with, when [k] has a left child: the only child, or the one of
    smaller priority, the right one when the two are equal. *)
Definition smaller_child (h : MinHeap) (k : Z) : Z :=
  if 2 * k + 1 <=? size h then
    if prio h (2 * k) <? prio h (2 * k + 1) then 2 * k else 2 * k + 1
  else 2 * k.

(** ** The invariants of the specification, on the C accessors *)

(** I1: the priority at the parent of a live position is at most the
    priority at the position. *)
Definition I1 (h : MinHeap) : Prop :=
  forall p, 1 < p <= size h ->
    exists a b, priorityAt h (parentIdx h p) = Ok a /\
                priorityAt h p = Ok b /\ a <= b.

(** I3: the index map sends the id stored at a live position back to
    that position, and no other live position stores that id. *)
Definition I3 (h : MinHeap) : Prop :=
  forall p, isValidIndex h p = true ->
    exists k, idAt h p = Ok k /\ indexOf h k = Ok p /\
      forall q, isValidIndex h q = true -> idAt h q = Ok k -> q = p.

Definition heap_inv (h : MinHeap) : Prop := wf h /\ I1 h /\ I3 h.

(** Some live position stores the id [i]. *)
Definition id_present (h : MinHeap) (i : Z) : bool :=
  existsb (fun p => match idAt h p with Ok k => k =? i | _ => false end)
          (seqZ 1 (size h)).

(** Modelled from the spec: getPriority is declared in minheap.c without
    a body; the specification has it look the position of the id up in
    the index map and read the priority stored there. *)
Definition getPriority (heap : MinHeap) (id : Z) : result Z :=
  do p <- indexOf heap id ;; priorityAt heap p.

(** ** Sequences of calls *)

Inductive op : Type :=
  | Insert (priority id : Z)
  | ExtractMin
  | DecreasePriority (id newPriority : Z).

Definition step (h : MinHeap) (o : op) : result MinHeap :=
  match o with
  | Insert p i => insert h p i
  | ExtractMin => do r <- extractMin h ;; Ok (snd r)
  | DecreasePriority i p => do r <- decreasePriority h i p ;; Ok (snd r)
  end.

(** The preconditions the comments of minheap.c put on each call. *)
Definition pre (h : MinHeap) (o : op) : bool :=
  match o with
  | Insert _ i =>
      (size h <? capacity h) && (0 <=? i) && (i <? capacity h)
      && negb (id_present h i)
  | ExtractMin => 0 <? size h
  | DecreasePriority _ _ => true
  end.

Fixpoint run (h : MinHeap) (ops : list op) : result MinHeap :=
  match ops with
  | [] => Ok h
  | o :: ops' => do h' <- step h o ;; run h' ops'
  end.

(** Every call of the sequence is made in a state that satisfies its
    precondition. *)
Fixpoint pre_run (h : MinHeap) (ops : list op) : bool :=
  match ops with
  | [] => true
  | o :: ops' =>
      pre h o &&
      match step h o with
      | Ok h' => pre_run h' ops'
      | _ => true
      end
  end.

(** Inserting a list of (priority, id) pairs, in order. *)
Fixpoint insert_all (h : MinHeap) (items : list (Z * Z)) : result MinHeap :=
  match items with
  | [] => Ok h
  | (p, i) :: items' => do h' <- insert h p i ;; insert_all h' items'
  end.

(** Calling extractMin [n] times; the nodes it returns, in order. *)
Fixpoint extract_n (n : nat) (h : MinHeap) : result (list HeapNode * MinHeap) :=
  match n with
  | O => Ok ([], h)
  | S n' =>
      do r <- extractMin h ;;
      do r' <- extract_n n' (snd r) ;;
      Ok (fst r :: fst r', snd r')
  end.

Definition node_of (item : Z * Z) : HeapNode := mkNode (fst item) (snd item).

(** ** Example heaps *)

(** A new heap whose storage happens to be zeroed. *)
Definition fresh (capacity : nat) : MinHeap :=
  newHeap (Z.of_nat capacity) (replicate (S capacity) (mkNode 0 0))
          (replicate capacity 0).

(** After insert(heap, 10, 0) and insert(heap, 20, 1) on a new heap of
    capacity 2. *)
Definition example2 : MinHeap :=
  mkHeap 2 2 [mkNode 0 0; mkNode 10 0; mkNode 20 1] [1; 2].

(** After insert(heap, 10, 0) and insert(heap, 20, 1) on a new heap of
    capacity 3: two nodes, and room for one more. *)
Definition example3 : MinHeap :=
  mkHeap 2 3 [mkNode 0 0; mkNode 10 0; mkNode 20 1; mkNode 0 0] [1; 2; 0].

(** The heap extractMin hands to bubbleDown when it is called after
    insert(heap, 1, 3), insert(heap, 3, 1), insert(heap, 3, 2) and
    insert(heap, 5, 0) on a new heap of capacity 4: the node of priority
    5 is at the root, above two children of priority 3. *)
Definition tie_heap : MinHeap :=
  mkHeap 3 4 [mkNode 0 0; mkNode 5 0; mkNode 3 1; mkNode 3 2; mkNode 1 3]
         [1; 2; 3; 0].

(** ** Helper function provided: printHeap

    What printHeap writes is the list of the strings its successive calls
    of printf produce. *)

Definition newline : string := String (Ascii.ascii_of_nat 10) EmptyString.
Definition tab : string := String (Ascii.ascii_of_nat 9) EmptyString.

(* "%d: %d [%d]" *)
Definition node_text (i priority id : Z) : string :=
  pretty i +:+ ": " +:+ pretty priority +:+ " [" +:+ pretty id +:+ "]".

(* "%d: %d [%d]\t\t%d: %d\n" with i, priorityAt(heap, i), idAt(heap, i), i,
   indexOf(heap, i) *)
Definition printHeap_row (heap : MinHeap) (i : Z) : result string :=
  do p <- priorityAt heap i ;;
  do k <- idAt heap i ;;
  do x <- indexOf heap i ;;
  Ok (node_text i p k +:+ tab +:+ tab +:+ pretty i +:+ ": " +:+ pretty x
      +:+ newline).

(* the body of the for loop, for the values [idxs] of i in turn *)
Fixpoint printHeap_rows (heap : MinHeap) (idxs : list Z) : result (list string) :=
  match idxs with
  | [] => Ok []
  | i :: idxs' =>
      do line <- printHeap_row heap i ;;
      do lines <- printHeap_rows heap idxs' ;;
      Ok (line :: lines)
  end.

Definition printHeap (heap : MinHeap) : result (list string) :=
  let header :=
    "MinHeap with size: " +:+ pretty (size heap) +:+ newline +:+ tab
    +:+ "capacity: " +:+ pretty (capacity heap) +:+ newline +:+ newline in
  let columns := "index: priority [ID]" +:+ tab +:+ " ID: index" +:+ newline in
  do rows <- printHeap_rows heap (seqZ 0 (capacity heap)) ;;
  do p <- priorityAt heap (capacity heap) ;;
  do k <- idAt heap (capacity heap) ;;
  Ok ([header; columns] ++ rows
      ++ [node_text (capacity heap) p k +:+ tab +:+ tab +:+ newline;
          newline +:+ newline]).

(** ** Basic facts: outcomes, integers, memory *)

Ltac zlia := Z.to_euclidean_division_equations; lia.

Lemma bind_Ok {A B : Type} (c : result A) (k : A -> result B) (b : B) :
  bind c k = Ok b -> exists a, c = Ok a /\ k a = Ok b.
Proof. destruct c; simpl; intros H; try discriminate. eauto. Qed.

Ltac inv_bind H :=
  repeat match type of H with
  | bind _ _ = Ok _ =>
      let x := fresh "x" in let Hx := fresh "Hx" in
      apply bind_Ok in H as (x & Hx & H)
  end.

Lemma int_of_in_range (z : Z) : in_int z -> int_of z = Ok z.
Proof.
  unfold in_int, int_of. intros Hz.
  destruct (Z.leb_spec INT_MIN z); [|lia].
  destruct (Z.leb_spec z INT_MAX); [done | lia].
Qed.

Lemma int_of_Ok (z y : Z) : int_of z = Ok y -> y = z /\ in_int z.
Proof.
  unfold in_int, int_of.
  destruct (Z.leb_spec INT_MIN z); destruct (Z.leb_spec z INT_MAX); simpl;
    intros [= <-]. split; [done | lia].
Qed.

Lemma load_lookup {A : Type} (mem : list A) (i : Z) (x : A) :
  load mem i = Ok x <-> 0 <= i /\ mem !! Z.to_nat i = Some x.
Proof.
  unfold load. destruct (Z.leb_spec 0 i) as [Hi|Hi].
  - destruct (mem !! Z.to_nat i) eqn:E.
    + split; [intros [= ->]; done | intros [_ [= ->]]; done].
    + split; [discriminate | intros [_ [=]]].
  - split; [discriminate | lia].
Qed.

Lemma load_in_range {A : Type} (mem : list A) (i : Z) :
  0 <= i < Z.of_nat (length mem) -> exists x, load mem i = Ok x.
Proof.
  intros Hi. destruct (lookup_lt_is_Some_2 mem (Z.to_nat i)) as [x Hx]; [lia|].
  exists x. apply load_lookup. split; [lia | done].
Qed.

Lemma store_in_range {A : Type} (mem : list A) (i : Z) (x : A) :
  0 <= i < Z.of_nat (length mem) -> store mem i x = Ok (<[Z.to_nat i := x]> mem).
Proof.
  intros Hi. unfold store.
  destruct (Z.leb_spec 0 i); [|lia].
  destruct (Z.ltb_spec i (Z.of_nat (length mem))); [done | lia].
Qed.

Lemma store_Ok {A : Type} (mem mem' : list A) (i : Z) (x : A) :
  store mem i x = Ok mem' ->
  0 <= i < Z.of_nat (length mem) /\ mem' = <[Z.to_nat i := x]> mem.
Proof.
  unfold store.
  destruct (Z.leb_spec 0 i); destruct (Z.ltb_spec i (Z.of_nat (length mem)));
    simpl; intros Hs; try discriminate.
  split; [lia | congruence].
Qed.

(** Reading where the arrays are allocated. *)

Lemma nodeAt_node (h : MinHeap) (p : Z) :
  0 <= p < Z.of_nat (length (arr h)) -> nodeAt h p = Ok (node h p).
Proof.
  intros Hp. unfold node.
  destruct (load_in_range (arr h) p Hp) as [x Hx].
  unfold nodeAt. by rewrite Hx.
Qed.

Lemma priorityAt_prio (h : MinHeap) (p : Z) :
  0 <= p < Z.of_nat (length (arr h)) -> priorityAt h p = Ok (prio h p).
Proof.
  intros Hp. unfold priorityAt. fold (nodeAt h p). by rewrite nodeAt_node.
Qed.

Lemma idAt_id (h : MinHeap) (p : Z) :
  0 <= p < Z.of_nat (length (arr h)) -> idAt h p = Ok (id (node h p)).
Proof.
  intros Hp. unfold idAt. fold (nodeAt h p). by rewrite nodeAt_node.
Qed.

Lemma indexOf_pos (h : MinHeap) (k : Z) :
  0 <= k < Z.of_nat (length (indexMap h)) -> indexOf h k = Ok (pos h k).
Proof.
  intros Hk. unfold pos.
  destruct (load_in_range (indexMap h) k Hk) as [x Hx].
  unfold indexOf. by rewrite Hx.
Qed.

Lemma nodeAt_Ok (h : MinHeap) (p : Z) (n : HeapNode) :
  nodeAt h p = Ok n -> n = node h p.
Proof. unfold node. by intros ->. Qed.

Lemma indexOf_Ok (h : MinHeap) (k i : Z) :
  indexOf h k = Ok i -> i = pos h k.
Proof. unfold pos. by intros ->. Qed.

Lemma load_store {A : Type} (mem : list A) (i p : Z) (x : A) :
  0 <= i < Z.of_nat (length mem) ->
  load (<[Z.to_nat i := x]> mem) p = if p =? i then Ok x else load mem p.
Proof.
  intros Hi. unfold load. destruct (Z.eqb_spec p i) as [->|Hne].
  - destruct (Z.leb_spec 0 i); [|lia].
    rewrite list_lookup_insert_eq by lia. done.
  - destruct (Z.leb_spec 0 p); [|done].
    rewrite list_lookup_insert_ne by lia. done.
Qed.

Lemma isValidIndex_spec (h : MinHeap) (p : Z) :
  isValidIndex h p = true <-> 1 <= p <= size h.
Proof. unfold isValidIndex, ROOT_INDEX. lia. Qed.

Lemma isValidIndex_false (h : MinHeap) (p : Z) :
  isValidIndex h p = false <-> ~ (1 <= p <= size h).
Proof. rewrite <- isValidIndex_spec. by destruct (isValidIndex h p). Qed.

(** Positions of children and parent.  leftIdx and rightIdx, exactly:
    the doubling of a valid position overflows, and the call is undefined,
    when the child's position does not fit an [int]. *)

Lemma leftIdx_cases (h : MinHeap) (p : Z) :
  leftIdx h p =
  if negb (isValidIndex h p) then Ok NOTHING
  else if 2 * p <=? INT_MAX then Ok (left_pos h p)
  else Undefined.
Proof.
  unfold leftIdx, left_pos. destruct (isValidIndex h p) eqn:Hp; simpl; [|done].
  apply isValidIndex_spec in Hp. unfold int_of.
  destruct (Z.leb_spec INT_MIN (2 * p)); [|unfold INT_MIN in *; lia].
  destruct (Z.leb_spec (2 * p) INT_MAX); simpl; [|done].
  unfold isValidIndex, ROOT_INDEX.
  destruct (Z.geb_spec (2 * p) 1); [|lia]. simpl.
  by destruct (2 * p <=? size h).
Qed.

Lemma rightIdx_cases (h : MinHeap) (p : Z) :
  rightIdx h p =
  if negb (isValidIndex h p) then Ok NOTHING
  else if 2 * p + 1 <=? INT_MAX then Ok (right_pos h p)
  else Undefined.
Proof.
  unfold rightIdx, right_pos. destruct (isValidIndex h p) eqn:Hp; simpl; [|done].
  apply isValidIndex_spec in Hp.
  destruct (Z.leb_spec (2 * p + 1) INT_MAX) as [Hfit|Hover].
  - rewrite !int_of_in_range by (unfold in_int, INT_MIN; lia). simpl.
    rewrite int_of_in_range by (unfold in_int, INT_MIN; lia). simpl.
    unfold isValidIndex, ROOT_INDEX.
    destruct (Z.geb_spec (2 * p + 1) 1); [|lia]. simpl.
    by destruct (2 * p + 1 <=? size h).
  - unfold int_of.
    destruct (Z.leb_spec INT_MIN (2 * p)); [|unfold INT_MIN in *; lia].
    destruct (Z.leb_spec (2 * p) INT_MAX); simpl; [|done].
    destruct (Z.leb_spec INT_MIN (2 * p + 1)); [|unfold INT_MIN in *; lia].
    destruct (Z.leb_spec (2 * p + 1) INT_MAX); [lia | done].
Qed.

Lemma leftIdx_spec (h : MinHeap) (p : Z) :
  2 * size h + 1 <= INT_MAX -> 1 <= p <= size h ->
  leftIdx h p = Ok (left_pos h p).
Proof.
  intros Hs Hp. rewrite leftIdx_cases.
  rewrite (proj2 (isValidIndex_spec h p) Hp). simpl.
  destruct (Z.leb_spec (2 * p) INT_MAX); [done | lia].
Qed.

Lemma rightIdx_spec (h : MinHeap) (p : Z) :
  2 * size h + 1 <= INT_MAX -> 1 <= p <= size h ->
  rightIdx h p = Ok (right_pos h p).
Proof.
  intros Hs Hp. rewrite rightIdx_cases.
  rewrite (proj2 (isValidIndex_spec h p) Hp). simpl.
  destruct (Z.leb_spec (2 * p + 1) INT_MAX); [done | lia].
Qed.

Lemma parentIdx_spec (h : MinHeap) (p : Z) :
  parentIdx h p = if (1 <? p) && (p <=? size h) then p / 2 else NOTHING.
Proof.
  unfold parentIdx, isValidIndex, ROOT_INDEX.
  destruct (Z.eqb_spec p 1), (Z.geb_spec p 1), (Z.leb_spec p (size h)),
    (Z.ltb_spec 1 p); simpl; try lia; try done.
  zlia.
Qed.

(** ** swap *)

Lemma set_indexMap_Ok (h h' : MinHeap) (k x : Z) :
  set_indexMap h k x = Ok h' ->
  0 <= k < Z.of_nat (length (indexMap h)) /\
  h' = mkHeap (size h) (capacity h) (arr h) (<[Z.to_nat k := x]> (indexMap h)).
Proof.
  unfold set_indexMap. intros H. inv_bind H.
  apply store_Ok in Hx as [Hk ->]. split; [done | congruence].
Qed.

Lemma set_arr_Ok (h h' : MinHeap) (p : Z) (x : HeapNode) :
  set_arr h p x = Ok h' ->
  0 <= p < Z.of_nat (length (arr h)) /\
  h' = mkHeap (size h) (capacity h) (<[Z.to_nat p := x]> (arr h)) (indexMap h).
Proof.
  unfold set_arr. intros H. inv_bind H.
  apply store_Ok in Hx as [Hk ->]. split; [done | congruence].
Qed.

Lemma set_indexMap_in_range (h : MinHeap) (k x : Z) :
  0 <= k < Z.of_nat (length (indexMap h)) ->
  set_indexMap h k x =
  Ok (mkHeap (size h) (capacity h) (arr h) (<[Z.to_nat k := x]> (indexMap h))).
Proof. intros Hk. unfold set_indexMap. by rewrite store_in_range. Qed.

Lemma set_arr_in_range (h : MinHeap) (p : Z) (x : HeapNode) :
  0 <= p < Z.of_nat (length (arr h)) ->
  set_arr h p x =
  Ok (mkHeap (size h) (capacity h) (<[Z.to_nat p := x]> (arr h)) (indexMap h)).
Proof. intros Hp. unfold set_arr. by rewrite store_in_range. Qed.

(** In any state: when [swap h i j] goes through on two valid positions,
    the index map sends the id that was at [j] to [i]. *)
Lemma swap_indexOf (h h' : MinHeap) (i j k : Z) :
  swap h i j = Ok h' ->
  isValidIndex h i = true -> isValidIndex h j = true ->
  idAt h j = Ok k ->
  indexOf h' k = Ok i /\ size h' = size h.
Proof.
  intros H Hi Hj Hk. unfold swap in H. rewrite Hi, Hj in H. simpl in H.
  inv_bind H.
  apply set_indexMap_Ok in Hx1 as [_ ->].
  unfold idAt in Hx2 at 1. simpl in Hx2. fold (idAt h j) in Hx2.
  assert (x2 = k) as -> by congruence.
  apply set_indexMap_Ok in Hx3 as [Hr ->]. simpl in Hr.
  apply set_arr_Ok in Hx5 as [_ ->].
  apply set_arr_Ok in H as [_ ->].
  unfold indexOf. simpl. rewrite load_store by done.
  by rewrite Z.eqb_refl.
Qed.

Lemma swap_eq (h : MinHeap) (i j : Z) :
  wf h -> index_consistent h -> 1 <= i <= size h -> 1 <= j <= size h ->
  swap h i j =
  Ok (mkHeap (size h) (capacity h)
        (<[Z.to_nat j := node h i]> (<[Z.to_nat i := node h j]> (arr h)))
        (<[Z.to_nat (id (node h j)) := i]>
           (<[Z.to_nat (id (node h i)) := j]> (indexMap h)))).
Proof.
  intros (Hsz & Hcap & Ha & Hm) Hic Hi Hj.
  destruct (Hic i Hi) as [Hidi _]. destruct (Hic j Hj) as [Hidj _].
  unfold swap.
  rewrite (proj2 (isValidIndex_spec h i) Hi), (proj2 (isValidIndex_spec h j) Hj).
  simpl.
  rewrite nodeAt_node by lia. simpl.
  rewrite idAt_id by lia. simpl.
  rewrite set_indexMap_in_range by lia. simpl.
  unfold idAt at 1. simpl. fold (nodeAt h j). rewrite nodeAt_node by lia. simpl.
  rewrite set_indexMap_in_range by (simpl; rewrite length_insert; lia). simpl.
  unfold nodeAt at 1. simpl. fold (nodeAt h j). rewrite nodeAt_node by lia. simpl.
  rewrite set_arr_in_range by (simpl; lia). simpl.
  rewrite set_arr_in_range by (simpl; rewrite length_insert; lia). simpl.
  done.
Qed.

Lemma swap_ok (h : MinHeap) (i j : Z) :
  wf h -> index_consistent h -> 1 <= i <= size h -> 1 <= j <= size h ->
  exists h', swap h i j = Ok h' /\ swapped h i j h'.
Proof.
  intros Hwf Hic Hi Hj. eexists. split; [by apply swap_eq|].
  destruct Hwf as (Hsz & Hcap & Ha & Hm).
  destruct (Hic i Hi) as [Hidi _]. destruct (Hic j Hj) as [Hidj _].
  unfold swapped. simpl. rewrite !length_insert.
  repeat split; try done.
  - intros p. unfold node at 1, nodeAt. simpl.
    rewrite load_store by (rewrite length_insert; lia).
    destruct (p =? j); [done|].
    rewrite load_store by lia.
    destruct (p =? i); [done|]. done.
  - intros k. unfold pos at 1, indexOf. simpl.
    rewrite load_store by (rewrite length_insert; lia).
    destruct (k =? id (node h j)); [done|].
    rewrite load_store by lia.
    destruct (k =? id (node h i)); [done|]. done.
Qed.

(** ** The invariants under swap *)

Lemma ids_inj (h : MinHeap) (p q : Z) :
  index_consistent h -> 1 <= p <= size h -> 1 <= q <= size h ->
  id (node h p) = id (node h q) -> p = q.
Proof.
  intros Hic Hp Hq E.
  destruct (Hic p Hp) as [_ <-]. destruct (Hic q Hq) as [_ <-].
  by rewrite E.
Qed.

Lemma elem_of_live_nodes (h : MinHeap) (n : HeapNode) :
  n ∈ live_nodes h <-> exists p, 1 <= p <= size h /\ n = node h p.
Proof.
  unfold live_nodes. rewrite list_elem_of_fmap. split.
  - intros (p & -> & Hp%elem_of_seqZ). exists p. split; [lia | done].
  - intros (p & Hp & ->). exists p. split; [done|]. apply elem_of_seqZ. lia.
Qed.

Lemma rearranged_sub (h h' : MinHeap) (p : Z) :
  rearranged h h' -> 1 <= p <= size h ->
  exists q, 1 <= q <= size h /\ node h' p = node h q.
Proof.
  intros (Hs & _ & _ & _ & Hn & _) Hp.
  apply elem_of_live_nodes. rewrite <- Hn. apply elem_of_live_nodes.
  exists p. split; [lia | done].
Qed.

Lemma rearranged_refl (h : MinHeap) : rearranged h h.
Proof. unfold rearranged. repeat split; eauto. Qed.

Lemma rearranged_trans (h1 h2 h3 : MinHeap) :
  rearranged h1 h2 -> rearranged h2 h3 -> rearranged h1 h3.
Proof.
  intros H12 H23.
  pose proof H12 as (Hs & Hc & Ha & Hm & Hn & Hp).
  pose proof H23 as (Hs' & Hc' & Ha' & Hm' & Hn' & Hp').
  unfold rearranged.
  split; [congruence|]. split; [congruence|]. split; [congruence|].
  split; [congruence|]. split; [by rewrite Hn'|].
  intros k Hk. rewrite Hs in *. rewrite Hp', Hp; [done | done |].
  intros p Hlive E. destruct (rearranged_sub h1 h2 p H12 Hlive) as (q & Hq & Eq).
  apply (Hk q Hq). congruence.
Qed.

Lemma rearranged_wf (h h' : MinHeap) : wf h -> rearranged h h' -> wf h'.
Proof.
  intros (Hsz & Hcap & Ha & Hm) (Hs & Hc & Ha' & Hm' & _).
  unfold wf. rewrite Hs, Hc, Ha', Hm'. done.
Qed.

Lemma transpose_involutive (i j p : Z) : transpose i j (transpose i j p) = p.
Proof.
  unfold transpose.
  destruct (Z.eqb_spec p j) as [->|Hj].
  - rewrite Z.eqb_refl. destruct (Z.eqb_spec i j); lia.
  - destruct (Z.eqb_spec p i) as [->|Hi].
    + by rewrite Z.eqb_refl.
    + destruct (Z.eqb_spec p j); [lia|]. destruct (Z.eqb_spec p i); lia.
Qed.

Lemma transpose_seqZ (i j n : Z) :
  1 <= i <= n -> 1 <= j <= n -> transpose i j <$> seqZ 1 n ≡ₚ seqZ 1 n.
Proof.
  intros Hi Hj.
  assert (forall p, 1 <= p < 1 + n -> 1 <= transpose i j p < 1 + n) as Hrange.
  { intros p Hp. unfold transpose.
    destruct (p =? j); [lia|]. destruct (p =? i); lia. }
  apply NoDup_Permutation.
  - apply NoDup_fmap_2_strong; [|apply NoDup_seqZ].
    intros p q _ _ E. by rewrite <- (transpose_involutive i j p), E,
      transpose_involutive.
  - apply NoDup_seqZ.
  - intros p. rewrite list_elem_of_fmap. setoid_rewrite elem_of_seqZ. split.
    + intros (q & -> & Hq). by apply Hrange.
    + intros Hp. exists (transpose i j p).
      split; [by rewrite transpose_involutive | by apply Hrange].
Qed.

Lemma swapped_live_nodes (h h' : MinHeap) (i j : Z) :
  1 <= i <= size h -> 1 <= j <= size h ->
  swapped h i j h' -> live_nodes h' ≡ₚ live_nodes h.
Proof.
  intros Hi Hj (Hs & _ & _ & _ & Hn & _). unfold live_nodes. rewrite Hs.
  rewrite <- (transpose_seqZ i j (size h)) at 2 by done.
  rewrite <- list_fmap_compose.
  erewrite list_fmap_ext; [done|].
  intros _ p _. simpl. rewrite Hn. unfold transpose.
  destruct (p =? j); [done|]. by destruct (p =? i).
Qed.

Lemma swapped_rearranged (h h' : MinHeap) (i j : Z) :
  1 <= i <= size h -> 1 <= j <= size h ->
  swapped h i j h' -> rearranged h h'.
Proof.
  intros Hi Hj Hsw. pose proof Hsw as (Hs & Hc & Ha & Hm & Hn & Hp).
  unfold rearranged. repeat split; try done.
  - by apply (swapped_live_nodes h h' i j).
  - intros k Hk. rewrite Hp.
    destruct (Z.eqb_spec k (id (node h j))) as [->|_]; [by destruct (Hk j)|].
    destruct (Z.eqb_spec k (id (node h i))) as [->|_]; [by destruct (Hk i)|].
    done.
Qed.

Lemma swapped_index_consistent (h h' : MinHeap) (i j : Z) :
  index_consistent h -> 1 <= i <= size h -> 1 <= j <= size h ->
  swapped h i j h' -> index_consistent h'.
Proof.
  intros Hic Hi Hj (Hs & Hc & Ha & Hm & Hn & Hp) p Hlive.
  rewrite Hs in Hlive. rewrite Hc, Hp, Hn.
  destruct (Z.eqb_spec p j) as [->|Hpj].
  - split; [apply (Hic i Hi)|].
    destruct (Z.eqb_spec (id (node h i)) (id (node h j))) as [E|_].
    + by apply (ids_inj h).
    + by rewrite Z.eqb_refl.
  - destruct (Z.eqb_spec p i) as [->|Hpi].
    + split; [apply (Hic j Hj)|]. by rewrite Z.eqb_refl.
    + split; [apply (Hic p Hlive)|].
      destruct (Z.eqb_spec (id (node h p)) (id (node h j))) as [E|_].
      { apply (ids_inj h) in E; done. }
      destruct (Z.eqb_spec (id (node h p)) (id (node h i))) as [E|_].
      { apply (ids_inj h) in E; done. }
      apply (Hic p Hlive).
Qed.

Lemma swapped_prio (h h' : MinHeap) (i j p : Z) :
  swapped h i j h' ->
  prio h' p = if p =? j then prio h i else if p =? i then prio h j else prio h p.
Proof.
  intros (_ & _ & _ & _ & Hn & _). unfold prio. rewrite Hn.
  destruct (p =? j); [done|]. by destruct (p =? i).
Qed.

(** ** bubbleUp *)

Lemma up_inv_leaf (h : MinHeap) (k : Z) :
  heap_ordered h -> size h < 2 * k -> up_inv h k.
Proof.
  intros Ho Hk. split.
  - intros p Hp _. by apply Ho.
  - intros c _ Hc E. zlia.
Qed.

Lemma up_inv_done (h : MinHeap) (k : Z) :
  up_inv h k -> (1 < k <= size h -> prio h (k / 2) <= prio h k) ->
  heap_ordered h.
Proof.
  intros [H1 _] Hk p Hp. destruct (Z.eq_dec p k) as [->|Hne]; auto.
Qed.

Lemma up_inv_swapped (h h' : MinHeap) (k : Z) :
  up_inv h k -> 1 < k <= size h -> prio h k < prio h (k / 2) ->
  swapped h (k / 2) k h' -> up_inv h' (k / 2).
Proof.
  intros [H1 H2] Hk Hlt Hsw.
  pose proof Hsw as (Hs & _). split.
  - intros p Hp Hne. rewrite Hs in Hp.
    rewrite !(swapped_prio h h' (k / 2) k) by done.
    destruct (Z.eqb_spec p k) as [->|Hpk].
    + destruct (Z.eqb_spec (k / 2) k); [zlia|].
      rewrite Z.eqb_refl. lia.
    + destruct (Z.eqb_spec p (k / 2)); [done|].
      destruct (Z.eqb_spec (p / 2) k) as [E|_].
      * apply H2; [lia | done | done].
      * destruct (Z.eqb_spec (p / 2) (k / 2)) as [E|_].
        -- specialize (H1 p Hp Hpk). rewrite E in H1. lia.
        -- by apply H1.
  - intros c Hk2 Hc E. rewrite Hs in Hc.
    rewrite !(swapped_prio h h' (k / 2) k) by done.
    destruct (Z.eqb_spec (k / 2 / 2) k); [zlia|].
    destruct (Z.eqb_spec (k / 2 / 2) (k / 2)); [zlia|].
    assert (prio h (k / 2 / 2) <= prio h (k / 2)) as Hpar.
    { apply H1; zlia. }
    destruct (Z.eqb_spec c k) as [->|Hck]; [done|].
    destruct (Z.eqb_spec c (k / 2)); [zlia|].
    specialize (H1 c Hc Hck). rewrite E in H1. lia.
Qed.

Lemma bubbleUp_rec_spec (fuel : nat) : forall (h : MinHeap) (k : Z),
  (Z.to_nat k < fuel)%nat ->
  wf h -> index_consistent h -> 1 <= k <= size h ->
  exists h', bubbleUp_rec fuel h k = Ok h' /\
    rearranged h h' /\ index_consistent h' /\
    (up_inv h k -> heap_ordered h').
Proof.
  induction fuel as [|fuel IH]; intros h k Hfuel Hwf Hic Hk; [lia|].
  pose proof Hwf as (Hsz & Hcap & Ha & Hm).
  simpl. destruct (Z.eqb_spec (size h) 0); [lia|].
  rewrite parentIdx_spec.
  destruct (Z.ltb_spec 1 k) as [Hk1|Hk1]; simpl.
  2:{ exists h. split; [done|]. split; [apply rearranged_refl|]. split; [done|].
      intros Hup. apply (up_inv_done h k); [done | lia]. }
  destruct (Z.leb_spec k (size h)); [|lia]. simpl.
  destruct (Z.eqb_spec (k / 2) NOTHING); [unfold NOTHING in *; zlia|].
  rewrite idAt_id by lia. simpl.
  rewrite priorityAt_prio by zlia. simpl.
  rewrite priorityAt_prio by lia. simpl.
  destruct (Z.gtb_spec (prio h (k / 2)) (prio h k)) as [Hgt|Hle].
  2:{ exists h. split; [done|]. split; [apply rearranged_refl|]. split; [done|].
      intros Hup. apply (up_inv_done h k); [done | lia]. }
  assert (1 <= k / 2 <= size h) as Hpar by zlia.
  destruct (swap_ok h (k / 2) k) as (h1 & -> & Hsw); try done. simpl.
  pose proof (swapped_rearranged h h1 (k / 2) k Hpar Hk Hsw) as Hre.
  pose proof (rearranged_wf h h1 Hwf Hre) as Hwf1.
  pose proof (swapped_index_consistent h h1 (k / 2) k Hic Hpar Hk Hsw) as Hic1.
  pose proof Hsw as (Hs1 & Hc1 & Ha1 & Hm1 & Hn1 & Hp1).
  destruct (Hic k Hk) as [Hidk _].
  rewrite indexOf_pos by lia. simpl.
  rewrite Hp1, Z.eqb_refl.
  destruct (IH h1 (k / 2)) as (h2 & E & Hre2 & Hic2 & Ho2); try done.
  - zlia.
  - lia.
  - exists h2. split; [done|].
    split; [by apply (rearranged_trans h h1 h2)|]. split; [done|].
    intros Hup. apply Ho2, (up_inv_swapped h h1 k); try done; lia.
Qed.

Lemma bubbleUp_spec (h : MinHeap) (k : Z) :
  wf h -> index_consistent h -> 1 <= k <= size h ->
  exists h', bubbleUp h k = Ok h' /\
    rearranged h h' /\ index_consistent h' /\
    (up_inv h k -> heap_ordered h').
Proof. intros. apply bubbleUp_rec_spec; try done. lia. Qed.

(** ** bubbleDown *)

Lemma bubbleDown_loop_eq (fuel : nat) (h : MinHeap) (k left right : Z) :
  bubbleDown_loop fuel h k left right =
  if left =? NOTHING then Ok h
  else
    match fuel with
    | O => OutOfFuel
    | S fuel' =>
        do r <- bubbleDown_body h k left right ;;
        match r with
        | None => Ok h
        | Some h' =>
            do p <- indexOf h' k ;;
            do left' <- leftIdx h' p ;;
            do q <- indexOf h' k ;;
            do right' <- rightIdx h' q ;;
            bubbleDown_loop fuel' h' k left' right'
        end
    end.
Proof. by destruct fuel. Qed.

Lemma smaller_child_cases (h : MinHeap) (k : Z) :
  smaller_child h k = 2 * k \/
  (smaller_child h k = 2 * k + 1 /\ 2 * k + 1 <= size h).
Proof.
  unfold smaller_child.
  destruct (Z.leb_spec (2 * k + 1) (size h)); [|by left].
  destruct (prio h (2 * k) <? prio h (2 * k + 1)); [by left | by right].
Qed.

Lemma smaller_child_min (h : MinHeap) (k c : Z) :
  1 <= k -> 1 < c <= size h -> c / 2 = k ->
  prio h (smaller_child h k) <= prio h c.
Proof.
  intros Hk Hc E. unfold smaller_child.
  assert (c = 2 * k \/ c = 2 * k + 1) as [->| ->] by zlia.
  - destruct (Z.leb_spec (2 * k + 1) (size h)); [|lia].
    destruct (Z.ltb_spec (prio h (2 * k)) (prio h (2 * k + 1))); lia.
  - destruct (Z.leb_spec (2 * k + 1) (size h)); [|lia].
    destruct (Z.ltb_spec (prio h (2 * k)) (prio h (2 * k + 1))); lia.
Qed.

(** The body of the loop on a well-formed heap, for the node at [k]
    with a left child. *)
Lemma bubbleDown_body_eq (h : MinHeap) (k : Z) :
  wf h -> index_consistent h -> 1 <= k -> 2 * k <= size h ->
  bubbleDown_body h (id (node h k)) (left_pos h k) (right_pos h k) =
  if prio h k >? prio h (smaller_child h k) then
    do h' <- swap h k (smaller_child h k) ;; Ok (Some h')
  else Ok None.
Proof.
  intros Hwf Hic Hk Hl. pose proof Hwf as (Hsz & Hcap & Ha & Hm).
  assert (1 <= k <= size h) as Hlive by lia.
  destruct (Hic k Hlive) as [Hid Hpos].
  unfold left_pos, right_pos.
  destruct (Z.leb_spec (2 * k) (size h)); [|lia].
  unfold bubbleDown_body, smaller_child.
  rewrite indexOf_pos by lia. simpl. rewrite Hpos.
  rewrite !priorityAt_prio by lia. simpl.
  destruct (Z.leb_spec (2 * k + 1) (size h)) as [Hr|Hr].
  - destruct (Z.eqb_spec (2 * k + 1) NOTHING); [unfold NOTHING in *; lia|].
    rewrite priorityAt_prio by lia. simpl.
    destruct (Z.gtb_spec (prio h k) (prio h (2 * k)));
      destruct (Z.gtb_spec (prio h k) (prio h (2 * k + 1)));
      destruct (Z.ltb_spec (prio h (2 * k)) (prio h (2 * k + 1)));
      simpl; try done; try lia;
      repeat match goal with
      | |- context [?a >? ?b] => destruct (Z.gtb_spec a b); try lia
      end; done.
  - simpl. done.
Qed.

Lemma down_inv_done (h : MinHeap) (k : Z) :
  down_inv h k ->
  (forall c, 1 < c <= size h -> c / 2 = k -> prio h k <= prio h c) ->
  heap_ordered h.
Proof.
  intros [H1 _] Hk p Hp. destruct (Z.eq_dec (p / 2) k) as [E|Hne]; auto.
  rewrite E. by apply Hk.
Qed.

Lemma down_inv_swapped (h h' : MinHeap) (k c : Z) :
  down_inv h k -> 1 <= k -> 1 < c <= size h -> c / 2 = k ->
  prio h c < prio h k ->
  (forall c', 1 < c' <= size h -> c' / 2 = k -> prio h c <= prio h c') ->
  swapped h k c h' -> down_inv h' c.
Proof.
  intros [H1 H2] Hk Hc E Hlt Hmin Hsw.
  pose proof Hsw as (Hs & _). split.
  - intros p Hp Hne. rewrite Hs in Hp.
    rewrite !(swapped_prio h h' k c) by done.
    destruct (Z.eqb_spec (p / 2) c); [done|].
    destruct (Z.eqb_spec p c) as [->|Hpc].
    + rewrite E, Z.eqb_refl. lia.
    + destruct (Z.eqb_spec p k) as [->|Hpk].
      * destruct (Z.eqb_spec (k / 2) k); [zlia|].
        apply H2; [lia | done | done].
      * destruct (Z.eqb_spec (p / 2) k) as [E'|Hne'].
        -- by apply Hmin.
        -- by apply H1.
  - intros g Hc1 Hg Eg. rewrite Hs in Hg.
    rewrite !(swapped_prio h h' k c) by done.
    destruct (Z.eqb_spec (c / 2) c); [zlia|].
    rewrite E, Z.eqb_refl.
    destruct (Z.eqb_spec g c); [zlia|].
    destruct (Z.eqb_spec g k); [zlia|].
    specialize (H1 g Hg). rewrite Eg in H1. apply H1. zlia.
Qed.

Lemma bubbleDown_loop_spec (fuel : nat) : forall (h : MinHeap) (k : Z),
  (Z.to_nat (size h - k) <= fuel)%nat ->
  2 * size h + 1 <= INT_MAX ->
  wf h -> index_consistent h -> 1 <= k <= size h ->
  exists h',
    bubbleDown_loop fuel h (id (node h k)) (left_pos h k) (right_pos h k) = Ok h' /\
    rearranged h h' /\ index_consistent h' /\
    (down_inv h k -> heap_ordered h').
Proof.
  induction fuel as [|fuel IH]; intros h k Hfuel Hfit Hwf Hic Hk;
    pose proof Hwf as (Hsz & Hcap & Ha & Hm);
    rewrite bubbleDown_loop_eq;
    destruct (Z.eqb_spec (left_pos h k) NOTHING) as [Hl|Hl].
  1,3: exists h; split; [done|]; split; [apply rearranged_refl|]; split; [done|];
    intros Hdown; apply (down_inv_done h k); [done|]; intros c Hc E;
    unfold left_pos in Hl;
    destruct (Z.leb_spec (2 * k) (size h)); [unfold NOTHING in Hl; lia | zlia].
  - unfold left_pos in Hl.
    destruct (Z.leb_spec (2 * k) (size h)); [lia | done].
  - assert (2 * k <= size h) as Hleft.
    { unfold left_pos in Hl.
      destruct (Z.leb_spec (2 * k) (size h)); [lia | done]. }
    rewrite bubbleDown_body_eq by (done || lia).
    set (c := smaller_child h k).
    destruct (Z.gtb_spec (prio h k) (prio h c)) as [Hgt|Hle]; simpl.
    2:{ exists h. split; [done|]. split; [apply rearranged_refl|]. split; [done|].
        intros Hdown. apply (down_inv_done h k); [done|]. intros c' Hc' E.
        pose proof (smaller_child_min h k c'). fold c in H. lia. }
    assert (1 < c <= size h /\ c / 2 = k) as [Hc Ec].
    { destruct (smaller_child_cases h k) as [E|[E ?]]; fold c in E; zlia. }
    destruct (swap_ok h k c) as (h1 & -> & Hsw); try done; [lia|]. simpl.
    assert (1 <= c <= size h) as Hc' by lia.
    pose proof (swapped_rearranged h h1 k c Hk Hc' Hsw) as Hre.
    pose proof (rearranged_wf h h1 Hwf Hre) as Hwf1.
    pose proof (swapped_index_consistent h h1 k c Hic Hk Hc' Hsw) as Hic1.
    pose proof Hsw as (Hs1 & Hc1 & Ha1 & Hm1 & Hn1 & Hp1).
    destruct (Hic k Hk) as [Hidk _].
    rewrite indexOf_pos by lia. simpl.
    assert (pos h1 (id (node h k)) = c /\ id (node h1 c) = id (node h k))
      as [Epos Eid].
    { rewrite Hp1, Hn1, !Z.eqb_refl.
      destruct (Z.eqb_spec (id (node h k)) (id (node h c))) as [E|_].
      - apply (ids_inj h) in E; [zlia | done | done | lia].
      - done. }
    rewrite Epos, leftIdx_spec, rightIdx_spec by lia. simpl. rewrite <- Eid.
    destruct (IH h1 c) as (h2 & E & Hre2 & Hic2 & Ho2); try done.
    + zlia.
    + lia.
    + lia.
    + exists h2. split; [done|].
      split; [by apply (rearranged_trans h h1 h2)|]. split; [done|].
      intros Hdown. apply Ho2, (down_inv_swapped h h1 k c); try done; try lia.
      intros c' Hc'' E'. by apply smaller_child_min; [lia | |].
Qed.

Lemma bubbleDown_spec (h : MinHeap) :
  2 * size h + 1 <= INT_MAX ->
  wf h -> index_consistent h ->
  exists h', bubbleDown h = Ok h' /\
    rearranged h h' /\ index_consistent h' /\
    (down_inv h 1 -> heap_ordered h').
Proof.
  intros Hfit Hwf Hic. pose proof Hwf as (Hsz & Hcap & Ha & Hm).
  unfold bubbleDown. destruct (Z.gtb_spec (size h) 0) as [Hpos|Hzero].
  - unfold ROOT_INDEX. rewrite idAt_id by lia. simpl.
    rewrite leftIdx_spec, rightIdx_spec by lia. simpl.
    apply bubbleDown_loop_spec; try done; lia.
  - exists h. split; [done|]. split; [apply rearranged_refl|]. split; [done|].
    intros _ p Hp. lia.
Qed.

(** ** The root of an ordered heap *)

Lemma root_minimal (h : MinHeap) :
  heap_ordered h -> forall p, 1 <= p <= size h -> prio h 1 <= prio h p.
Proof.
  intros Ho p Hp.
  assert (forall n : nat, forall q, (Z.to_nat q <= n)%nat ->
            1 <= q <= size h -> prio h 1 <= prio h q) as Hind.
  { induction n as [|n IH]; intros q Hn Hq; [lia|].
    destruct (Z.eq_dec q 1) as [->|Hne]; [lia|].
    transitivity (prio h (q / 2)).
    - apply IH; zlia.
    - apply Ho. lia. }
  by apply (Hind (Z.to_nat p)).
Qed.

(** ** insert *)

Lemma live_nodes_snoc (h h1 : MinHeap) :
  0 <= size h -> size h1 = size h + 1 ->
  (forall p, 1 <= p <= size h -> node h1 p = node h p) ->
  live_nodes h1 = live_nodes h ++ [node h1 (size h + 1)].
Proof.
  intros Hs Hs1 Hn. unfold live_nodes.
  rewrite Hs1, seqZ_app, fmap_app by lia.
  f_equal.
  - apply Forall_fmap_ext_1, Forall_seqZ. intros p Hp. apply Hn. lia.
  - rewrite seqZ_cons, seqZ_nil by lia. simpl. by rewrite Z.add_comm.
Qed.

Lemma insert_spec (h : MinHeap) (pr i : Z) :
  wf h -> index_consistent h ->
  size h < capacity h -> 0 <= i < capacity h ->
  (forall p, 1 <= p <= size h -> id (node h p) <> i) ->
  exists h', insert h pr i = Ok h' /\
    wf h' /\ index_consistent h' /\
    (heap_ordered h -> heap_ordered h') /\
    size h' = size h + 1 /\ capacity h' = capacity h /\
    live_nodes h' ≡ₚ mkNode pr i :: live_nodes h.
Proof.
  intros Hwf Hic Hroom Hi Hfresh. pose proof Hwf as (Hsz & Hcap & Ha & Hm).
  assert (int_of (size h + 1) = Ok (size h + 1)) as Hw.
  { apply int_of_in_range. unfold in_int, INT_MIN, INT_MAX in *. lia. }
  unfold insert.
  rewrite Hw. simpl. rewrite set_arr_in_range by lia. simpl.
  rewrite Hw. simpl. rewrite set_indexMap_in_range by (simpl; lia). simpl.
  rewrite Hw. simpl. unfold set_size. simpl.
  set (h1 := mkHeap _ _ _ _).
  assert (forall p, node h1 p = if p =? size h + 1 then mkNode pr i else node h p)
    as Hn1.
  { intros p. unfold node, nodeAt, h1. simpl. rewrite load_store by lia.
    by destruct (p =? size h + 1). }
  assert (forall k, pos h1 k = if k =? i then size h + 1 else pos h k) as Hp1.
  { intros k. unfold pos, indexOf, h1. simpl. rewrite load_store by lia.
    by destruct (k =? i). }
  assert (wf h1) as Hwf1.
  { unfold wf, h1. simpl. rewrite !length_insert. lia. }
  assert (index_consistent h1) as Hic1.
  { intros p Hp. rewrite Hn1, Hp1. unfold h1 in *. simpl in *.
    destruct (Z.eqb_spec p (size h + 1)) as [->|Hne]; simpl.
    - by rewrite Z.eqb_refl.
    - assert (1 <= p <= size h) as Hp' by lia.
      destruct (Z.eqb_spec (id (node h p)) i) as [E|_]; [by destruct (Hfresh p Hp')|].
      apply (Hic p Hp'). }
  assert (heap_ordered h -> up_inv h1 (size h1)) as Hup.
  { intros Ho. unfold h1 at 2. simpl. split.
    - intros p Hp Hne. unfold prio. rewrite !Hn1. unfold h1 in Hp. simpl in Hp.
      destruct (Z.eqb_spec p (size h + 1)); [done|].
      destruct (Z.eqb_spec (p / 2) (size h + 1)); [zlia|].
      apply Ho. lia.
    - intros c _ Hc E. unfold h1 in Hc. simpl in Hc. zlia. }
  destruct (bubbleUp_spec h1 (size h1)) as (h2 & E & Hre & Hic2 & Ho2); try done.
  { unfold h1. simpl. lia. }
  exists h2. split; [done|].
  pose proof Hre as (Hs2 & Hc2 & _ & _ & Hn2 & _).
  split; [by apply (rearranged_wf h1)|]. split; [done|]. split; [by auto|].
  split; [by rewrite Hs2|]. split; [by rewrite Hc2|].
  rewrite Hn2, (live_nodes_snoc h h1); [| lia | done |].
  - rewrite Hn1, Z.eqb_refl. by rewrite Permutation_app_comm.
  - intros p Hp. rewrite Hn1. destruct (Z.eqb_spec p (size h + 1)); [lia | done].
Qed.

(** ** extractMin *)

Lemma extractMin_spec (h : MinHeap) :
  2 * size h + 1 <= INT_MAX ->
  wf h -> index_consistent h -> 0 < size h ->
  exists h', extractMin h = Ok (node h 1, h') /\
    wf h' /\ index_consistent h' /\
    (heap_ordered h -> heap_ordered h') /\
    size h' = size h - 1 /\ capacity h' = capacity h /\
    pos h' (id (node h 1)) = 0 /\
    live_nodes h ≡ₚ node h 1 :: live_nodes h'.
Proof.
  intros Hfit Hwf Hic Hne. pose proof Hwf as (Hsz & Hcap & Ha & Hm).
  assert (1 <= 1 <= size h) as Hroot by lia.
  assert (1 <= size h <= size h) as Hlast by lia.
  unfold extractMin, ROOT_INDEX.
  destruct (swap_ok h 1 (size h)) as (hs & -> & Hsw); try done. simpl.
  pose proof (swapped_rearranged h hs 1 (size h) Hroot Hlast Hsw) as Hre.
  pose proof (rearranged_wf h hs Hwf Hre) as Hwfs.
  pose proof (swapped_index_consistent h hs 1 (size h) Hic Hroot Hlast Hsw) as Hics.
  pose proof Hsw as (Hss & Hcs & Has & Hms & Hns & Hps).
  pose proof Hwfs as (Hszs & Hcaps & Ha' & Hm').
  assert (node hs (size hs) = node h 1) as Esave.
  { by rewrite Hns, Hss, Z.eqb_refl. }
  rewrite nodeAt_node by lia. simpl.
  rewrite idAt_id by lia. simpl. rewrite Esave.
  destruct (Hic 1 Hroot) as [Hid1 _].
  rewrite set_indexMap_in_range by lia. simpl.
  rewrite int_of_in_range by (unfold in_int, INT_MIN, INT_MAX in *; lia).
  simpl. unfold set_size. simpl.
  set (h2 := mkHeap _ _ _ _).
  assert (forall p, node h2 p = node hs p) as Hn2 by done.
  assert (forall k, pos h2 k = if k =? id (node h 1) then 0 else pos hs k) as Hp2.
  { intros k. unfold pos, indexOf, h2. simpl. rewrite load_store by lia.
    by destruct (k =? id (node h 1)). }
  assert (forall p, 1 <= p <= size h2 -> id (node h2 p) <> id (node h 1)) as Hgone.
  { intros p Hp E. unfold h2 in Hp. simpl in Hp. rewrite Hn2, <- Esave in E.
    apply (ids_inj hs) in E; [lia | done | lia | lia]. }
  assert (wf h2) as Hwf2.
  { unfold wf, h2. simpl. rewrite !length_insert. lia. }
  assert (index_consistent h2) as Hic2.
  { intros p Hp. specialize (Hgone p Hp). rewrite Hp2.
    unfold h2 in Hp. simpl in Hp.
    destruct (Z.eqb_spec (id (node h2 p)) (id (node h 1))); [done|].
    rewrite Hn2. unfold h2. simpl. apply Hics. lia. }
  assert (heap_ordered h -> down_inv h2 1) as Hdown.
  { intros Ho. split; [|lia]. intros p Hp Hpar. unfold h2 in Hp. simpl in Hp.
    unfold prio. rewrite !Hn2, !Hns, Hss in *.
    destruct (Z.eqb_spec p (size h)); [lia|].
    destruct (Z.eqb_spec p 1); [lia|].
    destruct (Z.eqb_spec (p / 2) (size h)); [zlia|].
    destruct (Z.eqb_spec (p / 2) 1); [done|].
    apply Ho. lia. }
  assert (2 * size h2 + 1 <= INT_MAX) as Hfit2 by (unfold h2; simpl; lia).
  destruct (bubbleDown_spec h2) as (h3 & -> & Hre3 & Hic3 & Ho3); try done.
  simpl. exists h3. split; [done|].
  pose proof Hre3 as (Hs3 & Hc3 & _ & _ & Hn3 & Hp3).
  split; [by apply (rearranged_wf h2)|]. split; [done|]. split; [by auto|].
  split; [rewrite Hs3; unfold h2; simpl; lia|].
  split; [rewrite Hc3; unfold h2; simpl; lia|].
  split.
  - rewrite Hp3 by done. by rewrite Hp2, Z.eqb_refl.
  - destruct Hre as (_ & _ & _ & _ & Hnre & _).
    rewrite Hn3, <- Hnre, (live_nodes_snoc h2 hs).
    + replace (size h2 + 1) with (size hs) by (unfold h2; simpl; lia).
      by rewrite Esave, Permutation_app_comm.
    + unfold h2. simpl. lia.
    + unfold h2. simpl. lia.
    + done.
Qed.

(** ** The invariants on the C accessors and on the total readers *)

Lemma priorityAt_Ok (h : MinHeap) (p a : Z) :
  priorityAt h p = Ok a -> a = prio h p.
Proof.
  unfold priorityAt. fold (nodeAt h p). intros H. inv_bind H.
  apply nodeAt_Ok in Hx. unfold prio. congruence.
Qed.

Lemma idAt_Ok (h : MinHeap) (p k : Z) :
  idAt h p = Ok k -> k = id (node h p).
Proof.
  unfold idAt. fold (nodeAt h p). intros H. inv_bind H.
  apply nodeAt_Ok in Hx. congruence.
Qed.

Lemma heap_ordered_I1 (h : MinHeap) : wf h -> heap_ordered h -> I1 h.
Proof.
  intros (Hsz & Hcap & Ha & Hm) Ho p Hp.
  exists (prio h (p / 2)), (prio h p). rewrite parentIdx_spec.
  destruct (Z.ltb_spec 1 p); [|lia]. destruct (Z.leb_spec p (size h)); [|lia].
  simpl. rewrite !priorityAt_prio by zlia. auto.
Qed.

Lemma I1_heap_ordered (h : MinHeap) : I1 h -> heap_ordered h.
Proof.
  intros HI p Hp. destruct (HI p Hp) as (a & b & Ea & Eb & Hab).
  rewrite parentIdx_spec in Ea.
  destruct (Z.ltb_spec 1 p); [|lia]. destruct (Z.leb_spec p (size h)); [|lia].
  simpl in Ea. apply priorityAt_Ok in Ea, Eb. lia.
Qed.

Lemma index_consistent_I3 (h : MinHeap) : wf h -> index_consistent h -> I3 h.
Proof.
  intros (Hsz & Hcap & Ha & Hm) Hic p Hp%isValidIndex_spec.
  destruct (Hic p Hp) as [Hid Hpos].
  exists (id (node h p)). rewrite idAt_id, indexOf_pos by lia.
  split; [done|]. split; [by rewrite Hpos|].
  intros q Hq%isValidIndex_spec Eq. apply idAt_Ok in Eq.
  by apply (ids_inj h).
Qed.

Lemma I3_index_consistent (h : MinHeap) : wf h -> I3 h -> index_consistent h.
Proof.
  intros (Hsz & Hcap & Ha & Hm) HI p Hp%isValidIndex_spec.
  destruct (HI p Hp) as (k & Ek & Epos & _).
  apply idAt_Ok in Ek. subst k.
  pose proof Epos as [Hk Hl]%load_lookup.
  apply lookup_lt_Some in Hl.
  split; [lia|]. by apply indexOf_Ok in Epos.
Qed.

Lemma heap_inv_readers (h : MinHeap) :
  heap_inv h <-> wf h /\ index_consistent h /\ heap_ordered h.
Proof.
  split.
  - intros (Hwf & H1 & H3).
    auto using I1_heap_ordered, I3_index_consistent.
  - intros (Hwf & Hic & Ho). unfold heap_inv.
    auto using heap_ordered_I1, index_consistent_I3.
Qed.

Lemma id_present_false (h : MinHeap) (i : Z) :
  wf h -> id_present h i = false ->
  forall p, 1 <= p <= size h -> id (node h p) <> i.
Proof.
  intros (Hsz & Hcap & Ha & Hm) Hnp p Hp E.
  assert (id_present h i = true) as Habs; [|congruence].
  apply existsb_exists. exists p. split.
  - apply list_elem_of_In, elem_of_seqZ. lia.
  - rewrite idAt_id by lia. lia.
Qed.

Lemma id_present_true (h : MinHeap) (i : Z) :
  id_present h i = true <->
  exists p, isValidIndex h p = true /\ idAt h p = Ok i.
Proof.
  unfold id_present. rewrite existsb_exists. split.
  - intros (p & Hin%list_elem_of_In%elem_of_seqZ & Hp). exists p.
    split; [apply isValidIndex_spec; lia|].
    destruct (idAt h p); try discriminate. f_equal. lia.
  - intros (p & Hv%isValidIndex_spec & E). exists p. split.
    + apply list_elem_of_In, elem_of_seqZ. lia.
    + rewrite E. lia.
Qed.

(** ** Sequences of calls keep the invariants *)

Lemma newHeap_inv (c : Z) (a : list HeapNode) (m : list Z) :
  allocated c a m ->
  wf (newHeap c a m) /\ index_consistent (newHeap c a m) /\
  heap_ordered (newHeap c a m).
Proof.
  intros (Hc & Ha & Hm). unfold wf, index_consistent, heap_ordered. simpl.
  repeat split; try lia; intros p Hp; lia.
Qed.

Lemma step_inv (h : MinHeap) (o : op) :
  2 * capacity h + 1 <= INT_MAX ->
  wf h -> index_consistent h -> pre h o = true ->
  exists h', step h o = Ok h' /\ capacity h' = capacity h /\
    wf h' /\ index_consistent h' /\ (heap_ordered h -> heap_ordered h').
Proof.
  intros Hfit Hwf Hic Hpre. pose proof Hwf as (Hsz & Hcap & _).
  destruct o as [p i| |i p]; simpl in *.
  - apply andb_prop in Hpre as [Hpre Hnew].
    apply negb_true_iff in Hnew.
    destruct (insert_spec h p i) as (h' & E & ? & ? & ? & _ & ? & _);
      try done; try lia.
    + by apply id_present_false.
    + by exists h'.
  - destruct (extractMin_spec h) as (h' & -> & ? & ? & ? & _ & ? & _);
      try done; try lia.
    by exists h'.
  - by exists h.
Qed.

Lemma run_inv (ops : list op) : forall h : MinHeap,
  2 * capacity h + 1 <= INT_MAX ->
  wf h -> index_consistent h -> pre_run h ops = true ->
  exists h', run h ops = Ok h' /\ capacity h' = capacity h /\
    wf h' /\ index_consistent h' /\ (heap_ordered h -> heap_ordered h').
Proof.
  induction ops as [|o ops IH]; intros h Hfit Hwf Hic Hpre; simpl in *.
  - by exists h.
  - apply andb_prop in Hpre as [Hpre Hrest].
    destruct (step_inv h o) as (h1 & E & Hc1 & Hwf1 & Hic1 & Ho1); try done.
    rewrite E in *. simpl.
    destruct (IH h1) as (h2 & E2 & Hc2 & Hwf2 & Hic2 & Ho2);
      try done; [by rewrite Hc1|].
    exists h2. split; [done|]. split; [by rewrite Hc2|].
    do 2 (split; [done|]). auto.
Qed.

Lemma pre_run_take (ops : list op) : forall (h : MinHeap) (n : nat),
  pre_run h ops = true -> pre_run h (take n ops) = true.
Proof.
  induction ops as [|o ops IH]; intros h [|n] Hpre; simpl in *; try done.
  apply andb_prop in Hpre as [-> Hrest]. simpl.
  destruct (step h o); try done. by apply IH.
Qed.

(** ** Filling a heap and emptying it *)

Lemma insert_all_spec (items : list (Z * Z)) : forall h : MinHeap,
  wf h -> index_consistent h -> heap_ordered h ->
  size h + Z.of_nat (length items) <= capacity h ->
  NoDup (snd <$> items) ->
  Forall (fun it => 0 <= snd it < capacity h) items ->
  (forall it p, it ∈ items -> 1 <= p <= size h -> id (node h p) <> snd it) ->
  exists h', insert_all h items = Ok h' /\
    wf h' /\ index_consistent h' /\ heap_ordered h' /\
    size h' = size h + Z.of_nat (length items) /\
    capacity h' = capacity h /\
    live_nodes h' ≡ₚ (node_of <$> items) ++ live_nodes h.
Proof.
  induction items as [|[p i] items IH];
    intros h Hwf Hic Ho Hroom Hnd Hids Hfresh; simpl in *.
  - exists h. do 4 (split; [done|]). split; [lia|]. by split.
  - apply NoDup_cons in Hnd as [Hi Hnd].
    apply Forall_cons in Hids as [Hi' Hids]. simpl in Hi'.
    destruct (insert_spec h p i) as (h1 & -> & Hwf1 & Hic1 & Ho1 & Hs1 & Hc1 & Hl1);
      try done; try lia.
    { intros q Hq. apply (Hfresh (p, i) q); [left | done]. }
    simpl. destruct (IH h1) as (h2 & E & ? & ? & ? & Hs2 & Hc2 & Hl2); try done.
    + by apply Ho1.
    + lia.
    + by rewrite Hc1.
    + intros it q Hit Hq E.
      assert (node h1 q ∈ live_nodes h1) as Hin.
      { apply elem_of_live_nodes. by exists q. }
      rewrite Hl1 in Hin. apply elem_of_cons in Hin as [Eq|Hin].
      * rewrite Eq in E. simpl in E. apply Hi. rewrite E.
        by apply list_elem_of_fmap_2.
      * apply elem_of_live_nodes in Hin as (r & Hr & Er). rewrite Er in E.
        eapply (Hfresh it r); [by right | done | done].
    + exists h2. do 4 (split; [done|]). split; [lia|]. split; [lia|].
      rewrite Hl2, Hl1. unfold node_of at 2. simpl.
      by rewrite Permutation_middle.
Qed.

Lemma extract_n_spec (n : nat) : forall h : MinHeap,
  2 * size h + 1 <= INT_MAX ->
  wf h -> index_consistent h -> heap_ordered h -> size h = Z.of_nat n ->
  exists nodes h', extract_n n h = Ok (nodes, h') /\
    wf h' /\ index_consistent h' /\ heap_ordered h' /\
    size h' = 0 /\
    nodes ≡ₚ live_nodes h /\
    StronglySorted Z.le (priority <$> nodes).
Proof.
  induction n as [|n IH]; intros h Hfit Hwf Hic Ho Hs; simpl.
  - exists [], h. do 4 (split; [done|]). split; [lia|]. split.
    + unfold live_nodes. by rewrite Hs.
    + constructor.
  - destruct (extractMin_spec h) as (h1 & -> & Hwf1 & Hic1 & Ho1 & Hs1 & _ & _ & Hl1);
      try done; [lia|].
    simpl. destruct (IH h1) as (rest & h2 & -> & ? & ? & ? & ? & Hl2 & Hsorted);
      try done; [lia | by apply Ho1 | lia |].
    simpl. exists (node h 1 :: rest), h2. do 5 (split; [done|]). split.
    + by rewrite Hl1, Hl2.
    + simpl. constructor; [done|].
      apply Forall_fmap, Forall_forall. intros r Hr. simpl.
      assert (r ∈ live_nodes h) as Hin.
      { rewrite Hl1. right. by rewrite <- Hl2. }
      apply elem_of_live_nodes in Hin as (q & Hq & ->).
      by apply root_minimal.
Qed.

(** ** Fuel

    Reading and writing memory never runs out of fuel; the recursion of
    bubbleUp ends in every state, well-formed or not, within the fuel
    [bubbleUp] gives it; and more fuel never changes an outcome other
    than [OutOfFuel]. *)

Lemma bind_returns {A B : Type} (c : result A) (k : A -> result B) :
  c <> OutOfFuel -> (forall a, k a <> OutOfFuel) -> bind c k <> OutOfFuel.
Proof. destruct c; simpl; auto. Qed.

Lemma load_returns {A : Type} (mem : list A) (i : Z) : load mem i <> OutOfFuel.
Proof. unfold load. destruct (0 <=? i); [|done]. by destruct (mem !! Z.to_nat i). Qed.

Lemma store_returns {A : Type} (mem : list A) (i : Z) (x : A) :
  store mem i x <> OutOfFuel.
Proof. unfold store. by destruct ((0 <=? i) && (i <? Z.of_nat (length mem))). Qed.

Lemma idAt_returns (h : MinHeap) (p : Z) : idAt h p <> OutOfFuel.
Proof. apply bind_returns; [apply load_returns | done]. Qed.

Lemma priorityAt_returns (h : MinHeap) (p : Z) : priorityAt h p <> OutOfFuel.
Proof. apply bind_returns; [apply load_returns | done]. Qed.

Lemma set_arr_returns (h : MinHeap) (p : Z) (x : HeapNode) :
  set_arr h p x <> OutOfFuel.
Proof. apply bind_returns; [apply store_returns | done]. Qed.

Lemma set_indexMap_returns (h : MinHeap) (k x : Z) :
  set_indexMap h k x <> OutOfFuel.
Proof. apply bind_returns; [apply store_returns | done]. Qed.

Lemma swap_returns (h : MinHeap) (i j : Z) : swap h i j <> OutOfFuel.
Proof.
  unfold swap. destruct (isValidIndex h i && isValidIndex h j); [|done].
  repeat (apply bind_returns;
          [first [apply load_returns | apply idAt_returns
                 | apply set_indexMap_returns | apply set_arr_returns] | intros ?]).
  apply set_arr_returns.
Qed.

Lemma bubbleUp_rec_returns (fuel : nat) : forall (h : MinHeap) (i : Z),
  (Z.to_nat i < fuel)%nat -> bubbleUp_rec fuel h i <> OutOfFuel.
Proof.
  induction fuel as [|fuel IH]; intros h i Hfuel; [lia|].
  simpl. destruct (size h =? 0); [done|].
  rewrite parentIdx_spec.
  destruct (Z.ltb_spec 1 i) as [Hi|Hi]; simpl; [|done].
  destruct (Z.leb_spec i (size h)) as [Hs|Hs]; simpl; [|done].
  destruct (Z.eqb_spec (i / 2) NOTHING); [done|].
  destruct (idAt h i) as [k| |] eqn:Ek; simpl; [|done|by destruct (idAt_returns h i)].
  apply bind_returns; [apply priorityAt_returns | intros pp].
  apply bind_returns; [apply priorityAt_returns | intros pn].
  destruct (pp >? pn); [|done].
  destruct (swap h (i / 2) i) as [h'| |] eqn:Es; simpl;
    [|done|by destruct (swap_returns h (i / 2) i)].
  destruct (swap_indexOf h h' (i / 2) i k) as [-> _]; try done.
  - apply isValidIndex_spec. zlia.
  - apply isValidIndex_spec. lia.
  - simpl. apply IH. zlia.
Qed.

Lemma bubbleUp_returns (h : MinHeap) (i : Z) : bubbleUp h i <> OutOfFuel.
Proof. apply bubbleUp_rec_returns. lia. Qed.

Lemma bubbleUp_rec_more_fuel (fuel : nat) : forall (h : MinHeap) (i : Z),
  bubbleUp_rec fuel h i <> OutOfFuel ->
  bubbleUp_rec (S fuel) h i = bubbleUp_rec fuel h i.
Proof.
  induction fuel as [|fuel IH]; intros h i Hret; [done|].
  revert Hret. cbn [bubbleUp_rec].
  destruct (size h =? 0); [done|].
  destruct (parentIdx h i =? NOTHING); [done|].
  destruct (idAt h i); simpl; [|done..].
  destruct (priorityAt h (parentIdx h i)); simpl; [|done..].
  destruct (priorityAt h i); simpl; [|done..].
  destruct (a0 >? a1); [|done].
  destruct (swap h (parentIdx h i) i); simpl; [|done..].
  destruct (indexOf a2 a); simpl; [|done..].
  apply IH.
Qed.

Lemma bubbleDown_loop_more_fuel (fuel : nat) :
  forall (h : MinHeap) (k left right : Z),
  bubbleDown_loop fuel h k left right <> OutOfFuel ->
  bubbleDown_loop (S fuel) h k left right = bubbleDown_loop fuel h k left right.
Proof.
  induction fuel as [|fuel IH]; intros h k left right.
  - rewrite (bubbleDown_loop_eq 1), (bubbleDown_loop_eq 0).
    by destruct (left =? NOTHING).
  - rewrite (bubbleDown_loop_eq (S (S fuel))), (bubbleDown_loop_eq (S fuel)).
    destruct (left =? NOTHING); [done|].
    destruct (bubbleDown_body h k left right) as [[h'|]| |]; simpl; try done.
    destruct (indexOf h' k) as [pos| |]; simpl; try done.
    destruct (leftIdx h' pos); simpl; try done.
    destruct (rightIdx h' pos); simpl; try done.
    apply IH.
Qed.

(** ** The example heaps *)

Lemma example2_built : insert_all (fresh 2) [(10, 0); (20, 1)] = Ok example2.
Proof. vm_compute. reflexivity. Qed.

Lemma example2_inv : heap_inv example2.
Proof.
  apply heap_inv_readers. split; [|split].
  - unfold wf, INT_MAX. simpl. lia.
  - intros p Hp. simpl in Hp.
    assert (p = 1 \/ p = 2) as [-> | ->] by lia; vm_compute; intuition discriminate.
  - intros p Hp. simpl in Hp. assert (p = 2) as -> by lia. vm_compute. discriminate.
Qed.

Lemma example3_built : insert_all (fresh 3) [(10, 0); (20, 1)] = Ok example3.
Proof. vm_compute. reflexivity. Qed.

Lemma example3_inv : heap_inv example3.
Proof.
  apply heap_inv_readers. split; [|split].
  - unfold wf, INT_MAX. simpl. lia.
  - intros p Hp. simpl in Hp.
    assert (p = 1 \/ p = 2) as [-> | ->] by lia; vm_compute; intuition discriminate.
  - intros p Hp. simpl in Hp. assert (p = 2) as -> by lia. vm_compute. discriminate.
Qed.

(** [tie_heap] is the heap that extractMin has built when it calls
    bubbleDown: the statements of extractMin before that call, run after
    the four inserts. *)
Lemma tie_heap_reached :
  (do h <- insert_all (fresh 4) [(1, 3); (3, 1); (3, 2); (5, 0)] ;;
   do h <- swap h ROOT_INDEX (size h) ;;
   do last <- idAt h (size h) ;;
   do h <- set_indexMap h last 0 ;;
   do less <- int_of (size h - 1) ;;
   Ok (set_size h less)) = Ok tie_heap.
Proof. vm_compute. reflexivity. Qed.

(** * Properties of the specification *)

(** C1 (defect of minheap.c).  The specification has decreasePriority
    lower the priority of a live id, sift the node up and return true;
    after insert(10, 0) and insert(20, 1), decreasePriority(1, 5) should
    return true and getMin should then return id 1.  The function in
    minheap.c returns false and touches nothing: on that very heap, where
    id 1 is live with priority 20 > 5, it returns false, the heap is the
    same, and getMin still returns the node of id 0. *)
Theorem decreasePriority_rejects_decrease :
  insert_all (fresh 2) [(10, 0); (20, 1)] = Ok example2 /\
  id_present example2 1 = true /\
  getPriority example2 1 = Ok 20 /\
  decreasePriority example2 1 5 = Ok (false, example2) /\
  getMin example2 = Ok (mkNode 10 0).
Proof. repeat split; vm_compute; reflexivity. Qed.

(** C7.  When the id is not live in the heap, or the new priority is not
    strictly smaller than the current priority of the id, decreasePriority
    returns false and the heap (size, capacity, node array and index map)
    is the one it was given. *)
Theorem decreasePriority_rejection (h : MinHeap) (i newPriority : Z) :
  id_present h i = false \/
  (exists current, getPriority h i = Ok current /\ current <= newPriority) ->
  decreasePriority h i newPriority = Ok (false, h).
Proof. intros _. reflexivity. Qed.

Lemma decreasePriority_rejection_witness :
  (getPriority example2 1 = Ok 20 /\ 20 <= 25) /\
  decreasePriority example2 1 25 = Ok (false, example2).
Proof.
  assert (getPriority example2 1 = Ok 20 /\ 20 <= 25) as Hyp.
  { split; [vm_compute; reflexivity | lia]. }
  split; [exact Hyp|].
  apply (decreasePriority_rejection example2 1 25).
  right. exists 20. exact Hyp.
Defined.

(** C9.  Called with a position that is not a valid live position
    (position < 1 or position > size), bubbleUp returns the heap it was
    given, unchanged. *)
Theorem bubbleUp_invalid_position (h : MinHeap) (position : Z) :
  position < 1 \/ position > size h -> bubbleUp h position = Ok h.
Proof.
  intros Hinv. unfold bubbleUp. cbn [bubbleUp_rec].
  destruct (size h =? 0); [done|].
  rewrite parentIdx_spec.
  destruct (Z.ltb_spec 1 position); destruct (Z.leb_spec position (size h));
    simpl; try done; lia.
Qed.

Lemma bubbleUp_invalid_position_witness :
  bubbleUp example2 3 = Ok example2 /\ bubbleUp example2 0 = Ok example2.
Proof.
  split.
  - apply (bubbleUp_invalid_position example2 3). right. simpl. lia.
  - apply (bubbleUp_invalid_position example2 0). left. lia.
Defined.

(** C8, as the specification states it, fails: in the heap of two nodes
    the root has a left child (position 2) and no right child, and the
    number of nodes is even, not odd. *)
Lemma one_child_size_two :
  isValidIndex example2 1 = true /\
  leftIdx example2 1 = Ok 2 /\
  rightIdx example2 1 = Ok NOTHING /\
  Z.odd (size example2) = false.
Proof. repeat split; vm_compute; reflexivity. Qed.

(** C8, amended.  A live position [p] has a left child and no right child
    precisely when the number of nodes is [2 * p] (leftIdx returns a
    position other than NOTHING and rightIdx returns NOTHING): the number
    of nodes is then even, and [p], the parent of the last position, is on
    the second-to-last level of the tree. *)
Theorem one_child_iff_even (h : MinHeap) (p : Z) :
  size h <= INT_MAX -> isValidIndex h p = true ->
  ((exists l, leftIdx h p = Ok l /\ l <> NOTHING) /\ rightIdx h p = Ok NOTHING
   <-> size h = 2 * p) /\
  (size h = 2 * p ->
     Z.even (size h) = true /\ Z.log2 (size h) = Z.log2 p + 1).
Proof.
  intros Hs Hv. pose proof Hv as Hp%isValidIndex_spec.
  rewrite leftIdx_cases, rightIdx_cases, Hv. simpl.
  unfold left_pos, right_pos, NOTHING, INT_MAX in *. split.
  - split.
    + intros [(l & El & Hl) Er].
      destruct (Z.leb_spec (2 * p) 2147483647); [|done].
      destruct (Z.leb_spec (2 * p + 1) 2147483647); [|done].
      destruct (Z.leb_spec (2 * p) (size h)); [|congruence].
      destruct (Z.leb_spec (2 * p + 1) (size h)); [|lia].
      injection Er. lia.
    + intros E.
      destruct (Z.leb_spec (2 * p) 2147483647); [|lia].
      destruct (Z.leb_spec (2 * p + 1) 2147483647); [|lia].
      destruct (Z.leb_spec (2 * p) (size h)); [|lia].
      destruct (Z.leb_spec (2 * p + 1) (size h)); [lia|].
      split; [|done]. exists (2 * p). split; [done | lia].
  - intros ->. split.
    + rewrite Z.even_mul. done.
    + rewrite Z.log2_double by lia. lia.
Qed.

Lemma one_child_iff_even_witness :
  ((exists l, leftIdx example2 1 = Ok l /\ l <> NOTHING) /\
   rightIdx example2 1 = Ok NOTHING
   <-> size example2 = 2 * 1) /\
  (size example2 = 2 * 1 ->
     Z.even (size example2) = true /\ Z.log2 (size example2) = Z.log2 1 + 1).
Proof.
  apply (one_child_iff_even example2 1).
  - unfold INT_MAX. simpl. lia.
  - reflexivity.
Defined.

(** C4, as the specification states it, fails.  In [tie_heap] the node of
    id 0 and priority 5 is at the root, and both its children have
    priority 3.  Exchanging it with the left child would put it at
    position 2; the body of the loop of bubbleDown exchanges it with the
    right child and leaves the left child in place.  Seen from outside,
    extractMin after insert(1, 3), insert(3, 1), insert(3, 2) and
    insert(5, 0) leaves the node of id 0 at position 3. *)
Lemma tie_break_left_fails :
  indexOf tie_heap 0 = Ok 1 /\
  leftIdx tie_heap 1 = Ok 2 /\ rightIdx tie_heap 1 = Ok 3 /\
  priorityAt tie_heap 1 = Ok 5 /\
  priorityAt tie_heap 2 = Ok 3 /\ priorityAt tie_heap 3 = Ok 3 /\
  swap tie_heap 1 2 =
    Ok (mkHeap 3 4 [mkNode 0 0; mkNode 3 1; mkNode 5 0; mkNode 3 2; mkNode 1 3]
               [2; 1; 3; 0]) /\
  bubbleDown_body tie_heap 0 2 3 =
    Ok (Some (mkHeap 3 4
                [mkNode 0 0; mkNode 3 2; mkNode 3 1; mkNode 5 0; mkNode 1 3]
                [3; 2; 1; 0])) /\
  bubbleDown_body tie_heap 0 2 3 <>
    (do h' <- swap tie_heap 1 2 ;; Ok (Some h')) /\
  (do h <- insert_all (fresh 4) [(1, 3); (3, 1); (3, 2); (5, 0)] ;; extractMin h) =
    Ok (mkNode 1 3,
        mkHeap 3 4 [mkNode 0 0; mkNode 3 2; mkNode 3 1; mkNode 5 0; mkNode 1 3]
               [3; 2; 1; 0]).
Proof.
  repeat split; try (vm_compute; reflexivity).
  vm_compute. discriminate.
Qed.

(** C4, amended.  When the node that bubbleDown is moving down has two
    children of equal priority, both strictly smaller than its own, the
    body of the loop exchanges the node with its right child; the left
    child stays where it is. *)
Theorem tie_break_right (h : MinHeap) (k i p c l r : Z) :
  wf h -> I3 h ->
  isValidIndex h k = true ->
  leftIdx h k = Ok l -> rightIdx h k = Ok r -> r <> NOTHING ->
  idAt h k = Ok i ->
  priorityAt h k = Ok p ->
  priorityAt h l = Ok c ->
  priorityAt h r = Ok c ->
  c < p ->
  exists h',
    bubbleDown_body h i l r = Ok (Some h') /\
    swap h k r = Ok h' /\
    nodeAt h' r = nodeAt h k /\
    nodeAt h' k = nodeAt h r /\
    nodeAt h' l = nodeAt h l.
Proof.
  intros Hwf H3 Hv Hl Hr Hnr Ei Ep El Er Hlt.
  pose proof Hv as Hk%isValidIndex_spec.
  pose proof Hwf as (Hsz & Hcap & Ha & Hm).
  pose proof (I3_index_consistent h Hwf H3) as Hic.
  rewrite rightIdx_cases, Hv in Hr. simpl in Hr.
  destruct (2 * k + 1 <=? INT_MAX); [|done].
  injection Hr as <-.
  assert (2 * k + 1 <= size h) as Hright.
  { unfold right_pos in Hnr. by destruct (Z.leb_spec (2 * k + 1) (size h)). }
  rewrite leftIdx_cases, Hv in Hl. simpl in Hl.
  destruct (Z.leb_spec (2 * k) INT_MAX); [|unfold INT_MAX in *; lia].
  injection Hl as <-.
  apply idAt_Ok in Ei. subst i.
  rewrite bubbleDown_body_eq by (done || lia).
  revert El Er. unfold left_pos, right_pos.
  destruct (Z.leb_spec (2 * k) (size h)); [|lia].
  destruct (Z.leb_spec (2 * k + 1) (size h)); [|lia].
  intros El%priorityAt_Ok Er%priorityAt_Ok. apply priorityAt_Ok in Ep.
  assert (smaller_child h k = 2 * k + 1) as ->.
  { unfold smaller_child.
    destruct (Z.leb_spec (2 * k + 1) (size h)); [|lia].
    destruct (Z.ltb_spec (prio h (2 * k)) (prio h (2 * k + 1))); [lia | done]. }
  destruct (Z.gtb_spec (prio h k) (prio h (2 * k + 1))); [|lia].
  destruct (swap_ok h k (2 * k + 1)) as (h' & E & Hsw); try done; [lia|].
  rewrite E. simpl. exists h'. split; [done|]. split; [done|].
  destruct Hsw as (Hs' & Hc' & Ha' & Hm' & Hn & _).
  rewrite !(nodeAt_node h'), !(nodeAt_node h) by lia.
  rewrite !Hn, Z.eqb_refl.
  destruct (Z.eqb_spec k (2 * k + 1)); [lia|].
  destruct (Z.eqb_spec (2 * k) (2 * k + 1)); [lia|].
  destruct (Z.eqb_spec (2 * k) k); [lia|].
  by rewrite Z.eqb_refl.
Qed.

Lemma tie_break_right_witness :
  exists h',
    bubbleDown_body tie_heap 0 2 3 = Ok (Some h') /\
    swap tie_heap 1 3 = Ok h' /\
    nodeAt h' 3 = nodeAt tie_heap 1 /\
    nodeAt h' 1 = nodeAt tie_heap 3 /\
    nodeAt h' 2 = nodeAt tie_heap 2.
Proof.
  apply (tie_break_right tie_heap 1 0 5 3 2 3); try (vm_compute; reflexivity).
  - unfold wf, INT_MAX. simpl. lia.
  - intros p Hp%isValidIndex_spec. simpl in Hp.
    assert (p = 1 \/ p = 2 \/ p = 3) as [-> | [-> | ->]] by lia;
      eexists; (split; [vm_compute; reflexivity|]);
      (split; [vm_compute; reflexivity|]);
      intros q Hq%isValidIndex_spec; simpl in Hq;
      (assert (q = 1 \/ q = 2 \/ q = 3) as [-> | [-> | ->]] by lia);
      vm_compute; congruence.
  - vm_compute. discriminate.
Defined.

(** C6.  On a non-empty heap that satisfies the invariants, of a capacity
    below 2^30 = 1073741824 (so that doubling a position does not
    overflow an int), extractMin returns the node that was at the root
    (the one getMin returns), whose priority is at most the priority at
    every live position; the size goes down by exactly one; the index-map
    entry of the removed id is cleared (set to 0); and the invariants hold
    of the heap it leaves. *)
Theorem extractMin_returns_root (h : MinHeap) :
  capacity h < 1073741824 -> heap_inv h -> 0 < size h ->
  exists root h',
    getMin h = Ok root /\
    extractMin h = Ok (root, h') /\
    (forall p, isValidIndex h p = true ->
       exists x, priorityAt h p = Ok x /\ priority root <= x) /\
    size h' = size h - 1 /\
    indexOf h' (id root) = Ok 0 /\
    heap_inv h'.
Proof.
  intros Hfit (Hwf & Hic & Ho)%heap_inv_readers Hne.
  pose proof Hwf as (Hsz & Hcap & Ha & Hm).
  destruct (extractMin_spec h) as (h' & E & Hwf' & Hic' & Ho' & Hs' & Hc' & Hp' & _);
    try done; [unfold INT_MAX; lia|].
  exists (node h 1), h'.
  split; [apply (nodeAt_node h 1); lia|]. split; [done|].
  split; [|split; [done|split]].
  - intros p Hp%isValidIndex_spec. exists (prio h p).
    split; [apply priorityAt_prio; lia | by apply root_minimal].
  - destruct (Hic 1) as [Hid _]; [lia|].
    destruct Hwf' as (_ & _ & _ & Hm').
    rewrite indexOf_pos by lia. by rewrite Hp'.
  - apply heap_inv_readers. auto.
Qed.

Lemma extractMin_returns_root_witness :
  exists root h',
    getMin example2 = Ok root /\
    extractMin example2 = Ok (root, h') /\
    (forall p, isValidIndex example2 p = true ->
       exists x, priorityAt example2 p = Ok x /\ priority root <= x) /\
    size h' = size example2 - 1 /\
    indexOf h' (id root) = Ok 0 /\
    heap_inv h'.
Proof.
  apply (extractMin_returns_root example2).
  - simpl. lia.
  - exact example2_inv.
  - simpl. lia.
Defined.



(** C2.  Heap-order invariant I1: starting from a newly created heap of
    a capacity below 2^30 = 1073741824 (so that doubling a position does
    not overflow an int), after any sequence of insert, extractMin and
    decreasePriority calls, each made with its precondition satisfied,
    every call has returned and, for every position p with
    1 < p <= size, the priority at the parent of p is at most the
    priority at p. *)
Theorem heap_order_invariant
    (c : Z) (a : list HeapNode) (m : list Z) (ops : list op) :
  c < 1073741824 ->
  allocated c a m -> pre_run (newHeap c a m) ops = true ->
  exists h, run (newHeap c a m) ops = Ok h /\ I1 h.
Proof.
  intros Hfit Halloc Hpre.
  destruct (newHeap_inv c a m Halloc) as (Hwf & Hic & Ho).
  destruct (run_inv ops (newHeap c a m)) as (h & E & _ & Hwf' & _ & Ho');
    try done; [unfold INT_MAX; simpl; lia|].
  exists h. split; [done|]. apply heap_ordered_I1; auto.
Qed.

Lemma heap_order_invariant_witness :
  exists h,
    run (fresh 3)
      [Insert 5 0; Insert 3 1; DecreasePriority 0 1; ExtractMin; Insert 1 2;
       Insert 4 1; ExtractMin] = Ok h /\ I1 h.
Proof.
  apply (heap_order_invariant 3 (replicate 4 (mkNode 0 0)) (replicate 3 0)).
  - lia.
  - unfold allocated, INT_MAX. simpl. lia.
  - vm_compute. reflexivity.
Defined.

(** C3.  Index-consistency invariant I3: starting from a newly created
    heap of a capacity below 2^30 = 1073741824 (so that doubling a
    position does not overflow an int), after each call of a sequence of
    insert, extractMin and decreasePriority calls (after the first [n] of
    them, for every [n]), each made with its precondition satisfied, the
    call has returned, the index map sends the id stored at every live
    position p to p, and no other live position stores that id. *)
Theorem index_consistency_invariant
    (c : Z) (a : list HeapNode) (m : list Z) (ops : list op) (n : nat) :
  c < 1073741824 ->
  allocated c a m -> pre_run (newHeap c a m) ops = true ->
  exists h, run (newHeap c a m) (take n ops) = Ok h /\ I3 h.
Proof.
  intros Hfit Halloc Hpre.
  destruct (newHeap_inv c a m Halloc) as (Hwf & Hic & Ho).
  destruct (run_inv (take n ops) (newHeap c a m))
    as (h & E & _ & Hwf' & Hic' & _); try done.
  { unfold INT_MAX. simpl. lia. }
  { by apply pre_run_take. }
  exists h. split; [done|]. by apply index_consistent_I3.
Qed.

Lemma index_consistency_invariant_witness :
  exists h,
    run (fresh 3)
      (take 4 [Insert 5 0; Insert 3 1; DecreasePriority 0 1; ExtractMin;
               Insert 1 2; Insert 4 1; ExtractMin]) = Ok h /\ I3 h.
Proof.
  apply (index_consistency_invariant 3 (replicate 4 (mkNode 0 0)) (replicate 3 0)).
  - lia.
  - unfold allocated, INT_MAX. simpl. lia.
  - vm_compute. reflexivity.
Defined.

(** C5.  A heap built from a newly created heap, of a capacity below
    2^30 = 1073741824 (so that doubling a position does not overflow an
    int), by inserting n nodes of distinct, legal ids, no more than its
    capacity, is emptied by n calls of extractMin: all of them return, the
    priorities of the nodes they return are in non-decreasing order, these
    nodes are the inserted ones, and the size of the heap left is 0.  In
    particular, in a heap of any capacity of at least 5, inserting the
    priorities 5, 3, 8, 1, 4 with the ids 0, 1, 2, 3, 4 and extracting
    five times yields the priorities 1, 3, 4, 5, 8 in that order. *)
Theorem extraction_order :
  (forall (c : Z) (a : list HeapNode) (m : list Z) (items : list (Z * Z)),
     c < 1073741824 ->
     allocated c a m ->
     Z.of_nat (length items) <= c ->
     NoDup (snd <$> items) ->
     Forall (fun it => 0 <= snd it < c) items ->
     exists h nodes h',
       insert_all (newHeap c a m) items = Ok h /\
       size h = Z.of_nat (length items) /\
       extract_n (length items) h = Ok (nodes, h') /\
       Sorted Z.le (priority <$> nodes) /\
       size h' = 0 /\
       nodes ≡ₚ node_of <$> items) /\
  (forall (c : Z) (a : list HeapNode) (m : list Z),
     allocated c a m -> 5 <= c ->
     exists h nodes h',
       insert_all (newHeap c a m) [(5, 0); (3, 1); (8, 2); (1, 3); (4, 4)] = Ok h /\
       extract_n 5 h = Ok (nodes, h') /\
       priority <$> nodes = [1; 3; 4; 5; 8]).
Proof.
  assert (forall (c : Z) (a : list HeapNode) (m : list Z) (items : list (Z * Z)),
     2 * Z.of_nat (length items) + 1 <= INT_MAX ->
     allocated c a m ->
     Z.of_nat (length items) <= c ->
     NoDup (snd <$> items) ->
     Forall (fun it => 0 <= snd it < c) items ->
     exists h nodes h',
       insert_all (newHeap c a m) items = Ok h /\
       size h = Z.of_nat (length items) /\
       extract_n (length items) h = Ok (nodes, h') /\
       StronglySorted Z.le (priority <$> nodes) /\
       size h' = 0 /\
       nodes ≡ₚ node_of <$> items) as General.
  { intros c a m items Hfit Halloc Hlen Hnd Hids.
    destruct (newHeap_inv c a m Halloc) as (Hwf & Hic & Ho).
    destruct (insert_all_spec items (newHeap c a m))
      as (h & E & Hwf1 & Hic1 & Ho1 & Hs1 & _ & Hl1); try done.
    { simpl. lia. }
    simpl in Hs1.
    destruct (extract_n_spec (length items) h)
      as (nodes & h' & E' & _ & _ & _ & Hs' & Hl' & Hsorted); try done.
    { by rewrite Hs1. }
    exists h, nodes, h'. do 2 (split; [done|]). do 3 (split; [done|]).
    rewrite Hl', Hl1. unfold live_nodes at 1. simpl.
    by rewrite app_nil_r. }
  split.
  - intros c a m items Hfit Halloc Hlen Hnd Hids.
    destruct (General c a m items) as (h & nodes & h' & ? & ? & ? & ? & ? & ?);
      try done; [unfold INT_MAX; lia|].
    exists h, nodes, h'. do 3 (split; [done|]).
    split; [by apply StronglySorted_Sorted | done].
  - intros c a m Halloc Hc.
    destruct (General c a m [(5, 0); (3, 1); (8, 2); (1, 3); (4, 4)])
      as (h & nodes & h' & E & _ & E' & Hsorted & _ & Hperm); try done.
    { simpl. apply (bool_decide_unpack _). by vm_compute. }
    { repeat constructor; simpl; lia. }
    exists h, nodes, h'. do 2 (split; [done|]).
    apply (StronglySorted_unique Z.le); [done | |].
    + repeat constructor; lia.
    + rewrite Hperm. simpl. apply (bool_decide_unpack _). by vm_compute.
Qed.

Lemma extraction_order_witness :
  exists h nodes h',
    insert_all (fresh 5) [(5, 0); (3, 1); (8, 2); (1, 3); (4, 4)] = Ok h /\
    size h = 5 /\
    extract_n 5 h = Ok (nodes, h') /\
    Sorted Z.le (priority <$> nodes) /\
    size h' = 0 /\
    nodes ≡ₚ node_of <$> [(5, 0); (3, 1); (8, 2); (1, 3); (4, 4)].
Proof.
  destruct extraction_order as [General _].
  apply (General 5 (replicate 6 (mkNode 0 0)) (replicate 5 0)
           [(5, 0); (3, 1); (8, 2); (1, 3); (4, 4)]).
  - lia.
  - unfold allocated, INT_MAX. simpl. lia.
  - simpl. lia.
  - apply (bool_decide_unpack _). vm_compute. exact I.
  - repeat constructor; simpl; lia.
Defined.

(** * Further properties of minheap.c *)

(** ** Positions of children and parent *)

(** X1.  parentIdx, leftIdx and rightIdx never leave the live part of
    the array, and they move strictly up and down the tree: what leftIdx
    and rightIdx return is NOTHING or a valid index strictly greater than
    nodeIndex, what parentIdx returns is NOTHING or a valid index
    strictly smaller than nodeIndex, and NOTHING itself is never a valid
    index.  leftIdx and rightIdx have no defined result exactly when
    nodeIndex is a valid index whose double (plus one, for rightIdx) is
    above INT_MAX: the multiplication overflows. *)
Theorem index_helpers_valid_or_nothing (h : MinHeap) (p : Z) :
  (forall x, leftIdx h p = Ok x ->
     x = NOTHING \/ (isValidIndex h x = true /\ p < x)) /\
  (forall x, rightIdx h p = Ok x ->
     x = NOTHING \/ (isValidIndex h x = true /\ p < x)) /\
  (parentIdx h p = NOTHING \/
   (isValidIndex h (parentIdx h p) = true /\ parentIdx h p < p)) /\
  (leftIdx h p = Undefined <-> isValidIndex h p = true /\ INT_MAX < 2 * p) /\
  (rightIdx h p = Undefined <-> isValidIndex h p = true /\ INT_MAX < 2 * p + 1) /\
  isValidIndex h NOTHING = false.
Proof.
  rewrite leftIdx_cases, rightIdx_cases, parentIdx_spec.
  unfold left_pos, right_pos.
  destruct (isValidIndex h p) eqn:Hv; simpl.
  - apply isValidIndex_spec in Hv.
    destruct (Z.ltb_spec 1 p); destruct (Z.leb_spec p (size h)); try lia; simpl;
      (split; [|split; [|split; [|split; [|split; [|reflexivity]]]]]).
    all: try (intros x Hx; destruct (Z.leb_spec (2 * p) INT_MAX); [|done];
              injection Hx as <-;
              destruct (Z.leb_spec (2 * p) (size h)); [right | by left];
              split; [apply isValidIndex_spec|]; lia).
    all: try (intros x Hx; destruct (Z.leb_spec (2 * p + 1) INT_MAX); [|done];
              injection Hx as <-;
              destruct (Z.leb_spec (2 * p + 1) (size h)); [right | by left];
              split; [apply isValidIndex_spec|]; lia).
    all: try (destruct (Z.leb_spec (2 * p) INT_MAX); split;
              first [done | lia | intros [_ ?]; lia | by split]).
    all: try (destruct (Z.leb_spec (2 * p + 1) INT_MAX); split;
              first [done | lia | intros [_ ?]; lia | by split]).
    + right. split; [apply isValidIndex_spec|]; zlia.
    + by left.
  - split; [|split; [|split; [|split; [|split; [|reflexivity]]]]].
    + intros x Hx. injection Hx as <-. by left.
    + intros x Hx. injection Hx as <-. by left.
    + left. apply isValidIndex_false in Hv.
      destruct (Z.ltb_spec 1 p); destruct (Z.leb_spec p (size h)); simpl;
        first [done | lia].
    + split; [done | by intros [? _]].
    + split; [done | by intros [? _]].
Qed.

Lemma index_helpers_valid_or_nothing_witness :
  (2 = NOTHING \/ (isValidIndex tie_heap 2 = true /\ 1 < 2)) /\
  (3 = NOTHING \/ (isValidIndex tie_heap 3 = true /\ 1 < 3)).
Proof.
  destruct (index_helpers_valid_or_nothing tie_heap 1) as (Hl & Hr & _).
  split; [apply Hl | apply Hr]; vm_compute; reflexivity.
Defined.

(** X2.  For a nodeIndex below 2^30 = 1073741824 (in a heap of any size),
    leftIdx returns [2 * nodeIndex] when [nodeIndex >= 1] and
    [2 * nodeIndex <= size], rightIdx returns [2 * nodeIndex + 1] when
    [nodeIndex >= 1] and [2 * nodeIndex + 1 <= size], and both return
    NOTHING in every other case. *)
Theorem child_positions (h : MinHeap) (p : Z) :
  p < 1073741824 ->
  leftIdx h p =
    Ok (if (1 <=? p) && (2 * p <=? size h) then 2 * p else NOTHING) /\
  rightIdx h p =
    Ok (if (1 <=? p) && (2 * p + 1 <=? size h) then 2 * p + 1 else NOTHING).
Proof.
  intros Hfit. rewrite leftIdx_cases, rightIdx_cases.
  unfold left_pos, right_pos.
  destruct (isValidIndex h p) eqn:Hp; simpl.
  - apply isValidIndex_spec in Hp.
    destruct (Z.leb_spec (2 * p) INT_MAX); [|unfold INT_MAX in *; lia].
    destruct (Z.leb_spec (2 * p + 1) INT_MAX); [|unfold INT_MAX in *; lia].
    destruct (Z.leb_spec 1 p); [|lia]. done.
  - apply isValidIndex_false in Hp.
    destruct (Z.leb_spec 1 p); simpl; [|done].
    destruct (Z.leb_spec (2 * p) (size h)); [lia|].
    destruct (Z.leb_spec (2 * p + 1) (size h)); [lia | done].
Qed.

Lemma child_positions_witness :
  leftIdx tie_heap 1 = Ok 2 /\ rightIdx tie_heap 1 = Ok 3.
Proof.
  apply (child_positions tie_heap 1). lia.
Defined.

(** X3.  Parent and children are inverse to each other: the parent of
    the left child of p, and of its right child, is p; and a position
    with a parent is the left or the right child of that parent. *)
Theorem parent_child_round_trip (h : MinHeap) (p : Z) :
  size h <= INT_MAX ->
  (forall l, leftIdx h p = Ok l -> l <> NOTHING -> parentIdx h l = p) /\
  (forall r, rightIdx h p = Ok r -> r <> NOTHING -> parentIdx h r = p) /\
  (parentIdx h p <> NOTHING ->
     leftIdx h (parentIdx h p) = Ok p \/ rightIdx h (parentIdx h p) = Ok p).
Proof.
  intros Hs. split; [|split].
  - intros l El Hl. rewrite leftIdx_cases in El.
    destruct (isValidIndex h p) eqn:Hp; simpl in El; [|congruence].
    apply isValidIndex_spec in Hp.
    destruct (2 * p <=? INT_MAX); [|done]. injection El as <-.
    unfold left_pos in *.
    destruct (Z.leb_spec (2 * p) (size h)); [|done].
    rewrite parentIdx_spec.
    destruct (Z.ltb_spec 1 (2 * p)); [|lia].
    destruct (Z.leb_spec (2 * p) (size h)); [|lia]. simpl. zlia.
  - intros r Er Hr. rewrite rightIdx_cases in Er.
    destruct (isValidIndex h p) eqn:Hp; simpl in Er; [|congruence].
    apply isValidIndex_spec in Hp.
    destruct (2 * p + 1 <=? INT_MAX); [|done]. injection Er as <-.
    unfold right_pos in *.
    destruct (Z.leb_spec (2 * p + 1) (size h)); [|done].
    rewrite parentIdx_spec.
    destruct (Z.ltb_spec 1 (2 * p + 1)); [|lia].
    destruct (Z.leb_spec (2 * p + 1) (size h)); [|lia]. simpl. zlia.
  - rewrite parentIdx_spec.
    destruct (Z.ltb_spec 1 p); destruct (Z.leb_spec p (size h)); simpl;
      try done.
    intros _. rewrite leftIdx_cases, rightIdx_cases.
    rewrite (proj2 (isValidIndex_spec h (p / 2))) by zlia. simpl.
    unfold left_pos, right_pos.
    assert (p = 2 * (p / 2) \/ p = 2 * (p / 2) + 1) as [E|E] by zlia.
    + left. destruct (Z.leb_spec (2 * (p / 2)) INT_MAX); [|lia].
      destruct (Z.leb_spec (2 * (p / 2)) (size h)); [|lia]. f_equal. lia.
    + right. destruct (Z.leb_spec (2 * (p / 2) + 1) INT_MAX); [|lia].
      destruct (Z.leb_spec (2 * (p / 2) + 1) (size h)); [|lia]. f_equal. lia.
Qed.

Lemma parent_child_round_trip_witness :
  (forall l, leftIdx tie_heap 1 = Ok l -> l <> NOTHING -> parentIdx tie_heap l = 1) /\
  (forall r, rightIdx tie_heap 1 = Ok r -> r <> NOTHING -> parentIdx tie_heap r = 1) /\
  (parentIdx tie_heap 1 <> NOTHING ->
     leftIdx tie_heap (parentIdx tie_heap 1) = Ok 1 \/
     rightIdx tie_heap (parentIdx tie_heap 1) = Ok 1).
Proof.
  apply (parent_child_round_trip tie_heap 1). unfold INT_MAX. simpl. lia.
Defined.

(** X4.  The remark in bubbleDown, "left will exist if right exists":
    a position with a right child has a left child, the position just
    before the right child. *)
Theorem right_child_has_left_sibling (h : MinHeap) (p r : Z) :
  size h <= INT_MAX -> rightIdx h p = Ok r -> r <> NOTHING ->
  r - 1 <> NOTHING /\ leftIdx h p = Ok (r - 1).
Proof.
  intros Hs Er Hr. rewrite rightIdx_cases in Er. rewrite leftIdx_cases.
  destruct (isValidIndex h p) eqn:Hp; simpl in *; [|congruence].
  apply isValidIndex_spec in Hp.
  destruct (Z.leb_spec (2 * p + 1) INT_MAX); [|done]. injection Er as <-.
  unfold left_pos, right_pos in *.
  destruct (Z.leb_spec (2 * p + 1) (size h)); [|done].
  destruct (Z.leb_spec (2 * p) INT_MAX); [|lia].
  destruct (Z.leb_spec (2 * p) (size h)); [|lia].
  split; [unfold NOTHING; lia | f_equal; lia].
Qed.

Lemma right_child_has_left_sibling_witness :
  3 - 1 <> NOTHING /\ leftIdx tie_heap 1 = Ok (3 - 1).
Proof.
  apply (right_child_has_left_sibling tie_heap 1 3).
  - unfold INT_MAX. simpl. lia.
  - vm_compute. reflexivity.
  - vm_compute. discriminate.
Defined.

(** ** swap, further *)

Lemma lookup_node (h : MinHeap) (p : Z) :
  0 <= p < Z.of_nat (length (arr h)) -> arr h !! Z.to_nat p = Some (node h p).
Proof.
  intros Hp. pose proof (nodeAt_node h p Hp) as E.
  unfold nodeAt in E. by apply load_lookup in E as [_ E].
Qed.

Lemma lookup_pos (h : MinHeap) (k : Z) :
  0 <= k < Z.of_nat (length (indexMap h)) ->
  indexMap h !! Z.to_nat k = Some (pos h k).
Proof.
  intros Hk. pose proof (indexOf_pos h k Hk) as E.
  unfold indexOf in E. by apply load_lookup in E as [_ E].
Qed.

(** What a call of swap that returns has done, in any state. *)
Lemma swap_inv (h h' : MinHeap) (i j : Z) :
  swap h i j = Ok h' ->
  (isValidIndex h i && isValidIndex h j = false /\ h' = h) \/
  (isValidIndex h i && isValidIndex h j = true /\
   0 <= i < Z.of_nat (length (arr h)) /\
   0 <= j < Z.of_nat (length (arr h)) /\
   0 <= id (node h i) < Z.of_nat (length (indexMap h)) /\
   0 <= id (node h j) < Z.of_nat (length (indexMap h)) /\
   h' = mkHeap (size h) (capacity h)
          (<[Z.to_nat j := node h i]> (<[Z.to_nat i := node h j]> (arr h)))
          (<[Z.to_nat (id (node h j)) := i]>
             (<[Z.to_nat (id (node h i)) := j]> (indexMap h)))).
Proof.
  unfold swap. destruct (isValidIndex h i && isValidIndex h j) eqn:Hv.
  2:{ intros [= <-]. by left. }
  intros H. right. split; [done|]. inv_bind H.
  pose proof (nodeAt_Ok _ _ _ Hx) as ->.
  pose proof (idAt_Ok _ _ _ Hx0) as ->.
  apply set_indexMap_Ok in Hx1 as [Hr1 ->].
  unfold idAt in Hx2 at 1. simpl in Hx2. fold (idAt h j) in Hx2.
  pose proof (idAt_Ok _ _ _ Hx2) as ->.
  apply set_indexMap_Ok in Hx3 as [Hr2 ->]. simpl in Hr2.
  rewrite length_insert in Hr2.
  unfold nodeAt in Hx4 at 1. simpl in Hx4. fold (nodeAt h j) in Hx4.
  pose proof (nodeAt_Ok _ _ _ Hx4) as ->.
  apply set_arr_Ok in Hx5 as [Hr3 ->]. simpl in Hr3.
  apply set_arr_Ok in H as [Hr4 ->]. simpl in Hr4.
  rewrite length_insert in Hr4. done.
Qed.

(** X5.  swap is its own inverse: on a well-formed heap with a consistent
    index map, exchanging two valid positions twice gives back the very
    same heap, node array and index map. *)
Theorem swap_involutive (h : MinHeap) (i j : Z) :
  wf h -> I3 h -> isValidIndex h i = true -> isValidIndex h j = true ->
  exists h', swap h i j = Ok h' /\ swap h' i j = Ok h.
Proof.
  intros Hwf Hic%I3_index_consistent Hi%isValidIndex_spec Hj%isValidIndex_spec;
    [|done].
  pose proof Hwf as (Hsz & Hcap & Ha & Hm).
  destruct (swap_ok h i j) as (h' & E & Hsw); try done.
  exists h'. split; [done|].
  pose proof (swapped_rearranged h h' i j Hi Hj Hsw) as Hre.
  pose proof (rearranged_wf h h' Hwf Hre) as Hwf'.
  pose proof (swapped_index_consistent h h' i j Hic Hi Hj Hsw) as Hic'.
  pose proof Hsw as (Hs' & _ & _ & _ & Hn & _).
  rewrite swap_eq by (done || lia).
  destruct (Hic i Hi) as [Hidi Hpi]. destruct (Hic j Hj) as [Hidj Hpj].
  assert (node h' j = node h i) as -> by (by rewrite Hn, Z.eqb_refl).
  assert (node h' i = if i =? j then node h i else node h j) as ->.
  { rewrite Hn. destruct (i =? j); [done|]. by rewrite Z.eqb_refl. }
  rewrite swap_eq in E by done. injection E as <-. simpl.
  clear Hsw Hre Hwf' Hic' Hs' Hn.
  destruct h as [sz cp a m]. simpl in *. f_equal. f_equal.
  - apply list_eq. intros n.
    pose proof (lookup_node (mkHeap sz cp a m) i) as Li.
    pose proof (lookup_node (mkHeap sz cp a m) j) as Lj. simpl in Li, Lj.
    destruct (decide (n = Z.to_nat j)) as [->|Hnj].
    + rewrite list_lookup_insert_eq by (rewrite !length_insert; lia).
      rewrite Lj by lia. destruct (Z.eqb_spec i j) as [->|]; done.
    + rewrite list_lookup_insert_ne by done.
      destruct (decide (n = Z.to_nat i)) as [->|Hni].
      * rewrite list_lookup_insert_eq by (rewrite !length_insert; lia).
        by rewrite Li by lia.
      * by rewrite !list_lookup_insert_ne by done.
  - apply list_eq. intros n.
    pose proof (lookup_pos (mkHeap sz cp a m) (id (node (mkHeap sz cp a m) i)))
      as Li.
    pose proof (lookup_pos (mkHeap sz cp a m) (id (node (mkHeap sz cp a m) j)))
      as Lj.
    simpl in Li, Lj.
    set (ki := id (node (mkHeap sz cp a m) i)) in *.
    set (kj := id (node (mkHeap sz cp a m) j)) in *.
    assert (i <> j -> ki <> kj) as Hne.
    { intros Hij E. apply Hij. by apply (ids_inj (mkHeap sz cp a m)). }
    destruct (decide (n = Z.to_nat ki)) as [->|Hni].
    + rewrite list_lookup_insert_eq by (rewrite !length_insert; lia).
      rewrite Li by lia. by rewrite Hpi.
    + rewrite list_lookup_insert_ne by done.
      destruct (Z.eqb_spec i j) as [->|Hij].
      * by rewrite !list_lookup_insert_ne by done.
      * specialize (Hne Hij).
        destruct (decide (n = Z.to_nat kj)) as [->|Hnj].
        -- rewrite list_lookup_insert_eq by (rewrite !length_insert; lia).
           rewrite Lj by lia. by rewrite Hpj.
        -- by rewrite !list_lookup_insert_ne by done.
Qed.

Lemma swap_involutive_witness :
  exists h', swap tie_heap 1 3 = Ok h' /\ swap h' 1 3 = Ok tie_heap.
Proof.
  apply (swap_involutive tie_heap 1 3); try (vm_compute; reflexivity).
  - unfold wf, INT_MAX. simpl. lia.
  - intros p Hp%isValidIndex_spec. simpl in Hp.
    assert (p = 1 \/ p = 2 \/ p = 3) as [-> | [-> | ->]] by lia;
      eexists; (split; [vm_compute; reflexivity|]);
      (split; [vm_compute; reflexivity|]);
      intros q Hq%isValidIndex_spec; simpl in Hq;
      (assert (q = 1 \/ q = 2 \/ q = 3) as [-> | [-> | ->]] by lia);
      vm_compute; congruence.
Defined.

(** X6.  The order of the two arguments of swap does not matter: on a
    well-formed heap with a consistent index map, swap(heap, i, j) and
    swap(heap, j, i) leave the same heap. *)
Theorem swap_symmetric (h : MinHeap) (i j : Z) :
  wf h -> I3 h -> isValidIndex h i = true -> isValidIndex h j = true ->
  swap h i j = swap h j i /\ exists h', swap h i j = Ok h'.
Proof.
  intros Hwf Hic%I3_index_consistent Hi%isValidIndex_spec Hj%isValidIndex_spec;
    [|done].
  split; [|destruct (swap_ok h i j) as (h' & E & _); eauto].
  destruct (Z.eq_dec i j) as [->|Hij]; [done|].
  rewrite !swap_eq by done. f_equal. f_equal.
  - apply list_insert_insert_ne. lia.
  - apply list_insert_insert_ne.
    destruct (Hic i Hi) as [Hidi _]. destruct (Hic j Hj) as [Hidj _].
    intros E. apply Hij. apply (ids_inj h); try done. lia.
Qed.

Lemma swap_symmetric_witness :
  swap example2 1 2 = swap example2 2 1 /\ exists h', swap example2 1 2 = Ok h'.
Proof.
  apply (swap_symmetric example2 1 2); try (vm_compute; reflexivity).
  - apply example2_inv.
  - apply example2_inv.
Defined.

(** X7.  Whenever swap returns, in any state: the size, the capacity and
    the lengths of the two arrays are what they were, the nodes at all
    positions other than the two given ones are untouched, and when one
    of the two positions is not valid the whole heap is untouched. *)
Theorem swap_frame (h h' : MinHeap) (i j : Z) :
  swap h i j = Ok h' ->
  size h' = size h /\ capacity h' = capacity h /\
  length (arr h') = length (arr h) /\
  length (indexMap h') = length (indexMap h) /\
  (forall p, p <> i -> p <> j -> nodeAt h' p = nodeAt h p) /\
  (isValidIndex h i = false \/ isValidIndex h j = false -> h' = h).
Proof.
  intros [[Hv ->] | (Hv & Hi & Hj & Hki & Hkj & ->)]%swap_inv.
  - repeat split; done.
  - simpl. rewrite !length_insert. repeat split; try done.
    + intros p Hpi Hpj. unfold nodeAt. simpl.
      rewrite load_store by (rewrite length_insert; lia).
      destruct (Z.eqb_spec p j); [done|].
      rewrite load_store by lia.
      destruct (Z.eqb_spec p i); done.
    + apply andb_prop in Hv as [-> ->]. intros [?|?]; discriminate.
Qed.

Lemma swap_frame_witness :
  let h' := mkHeap 2 2 [mkNode 0 0; mkNode 20 1; mkNode 10 0] [2; 1] in
  size h' = size example2 /\ capacity h' = capacity example2 /\
  length (arr h') = length (arr example2) /\
  length (indexMap h') = length (indexMap example2) /\
  (forall p, p <> 1 -> p <> 2 -> nodeAt h' p = nodeAt example2 p) /\
  (isValidIndex example2 1 = false \/ isValidIndex example2 2 = false ->
   h' = example2).
Proof.
  apply (swap_frame example2 _ 1 2). vm_compute. reflexivity.
Defined.

(** ** getMin, insert and extractMin, further *)

Lemma root_le_live (h : MinHeap) (n : HeapNode) :
  heap_ordered h -> n ∈ live_nodes h -> prio h 1 <= priority n.
Proof.
  intros Ho (p & Hp & ->)%elem_of_live_nodes. by apply root_minimal.
Qed.

Lemma root_live (h : MinHeap) : 0 < size h -> node h 1 ∈ live_nodes h.
Proof. intros Hs. apply elem_of_live_nodes. exists 1. split; [lia | done]. Qed.

Lemma id_present_absent (h : MinHeap) (k : Z) :
  (forall p, isValidIndex h p = true -> idAt h p <> Ok k) ->
  id_present h k = false.
Proof.
  intros Hno. destruct (id_present h k) eqn:E; [|done].
  apply id_present_true in E as (p & Hp & Ep). by destruct (Hno p Hp).
Qed.

(** X8.  getMin on a non-empty ordered heap returns the node at the root,
    and no live node has a smaller priority. *)
Theorem getMin_minimum (h : MinHeap) :
  wf h -> I1 h -> 0 < size h ->
  exists root,
    getMin h = Ok root /\ nodeAt h ROOT_INDEX = Ok root /\
    forall p, isValidIndex h p = true ->
      exists x, priorityAt h p = Ok x /\ priority root <= x.
Proof.
  intros Hwf Ho%I1_heap_ordered Hs. pose proof Hwf as (Hsz & Hcap & Ha & Hm).
  exists (node h 1). unfold getMin, ROOT_INDEX. fold (nodeAt h 1).
  rewrite nodeAt_node by lia. do 2 (split; [done|]).
  intros p Hp%isValidIndex_spec. exists (prio h p).
  split; [apply priorityAt_prio; lia | by apply root_minimal].
Qed.

Lemma getMin_minimum_witness :
  exists root,
    getMin example2 = Ok root /\ nodeAt example2 ROOT_INDEX = Ok root /\
    forall p, isValidIndex example2 p = true ->
      exists x, priorityAt example2 p = Ok x /\ priority root <= x.
Proof.
  apply (getMin_minimum example2).
  - apply example2_inv.
  - apply example2_inv.
  - simpl. lia.
Defined.

(** X9.  insert, called with its preconditions on a well-formed heap with
    a consistent index map, returns; the size grows by one and the
    capacity stays; the new id is found through the index map at a valid
    position that holds the new node; every node that was in the heap is
    still there, unchanged, and found through the index map; and the
    index map is consistent again. *)
Theorem insert_lookup (h : MinHeap) (pr i : Z) :
  wf h -> I3 h ->
  size h < capacity h -> 0 <= i < capacity h -> id_present h i = false ->
  exists h' p,
    insert h pr i = Ok h' /\
    size h' = size h + 1 /\ capacity h' = capacity h /\
    isValidIndex h' p = true /\ indexOf h' i = Ok p /\
    nodeAt h' p = Ok (mkNode pr i) /\
    (forall q n, isValidIndex h q = true -> nodeAt h q = Ok n ->
       exists q', isValidIndex h' q' = true /\ nodeAt h' q' = Ok n /\
                  indexOf h' (id n) = Ok q') /\
    wf h' /\ I3 h'.
Proof.
  intros Hwf Hic%I3_index_consistent Hroom Hi Hnew; [|done].
  destruct (insert_spec h pr i) as (h' & E & Hwf' & Hic' & _ & Hs' & Hc' & Hl');
    try done.
  { by apply id_present_false. }
  pose proof Hwf' as (Hsz' & Hcap' & Ha' & Hm').
  assert (forall n, n ∈ live_nodes h' ->
            exists q, isValidIndex h' q = true /\ nodeAt h' q = Ok n /\
                      indexOf h' (id n) = Ok q) as Hfind.
  { intros n (q & Hq & ->)%elem_of_live_nodes. exists q.
    destruct (Hic' q Hq) as [Hid Hpos].
    split; [by apply isValidIndex_spec|].
    split; [apply nodeAt_node; lia|].
    rewrite indexOf_pos by lia. by rewrite Hpos. }
  destruct (Hfind (mkNode pr i)) as (p & Hp & Ep & Ei).
  { rewrite Hl'. left. }
  exists h', p. do 3 (split; [done|]). do 3 (split; [done|]).
  split; [|split; [done | by apply index_consistent_I3]].
  intros q n Hq%isValidIndex_spec En. apply nodeAt_Ok in En. subst n.
  apply Hfind. rewrite Hl'. right. apply elem_of_live_nodes. by exists q.
Qed.

Lemma insert_lookup_witness :
  insert example3 5 2 =
    Ok (mkHeap 3 3 [mkNode 0 0; mkNode 5 2; mkNode 20 1; mkNode 10 0] [3; 2; 1]) /\
  exists h' p,
    insert example3 5 2 = Ok h' /\
    size h' = size example3 + 1 /\ capacity h' = capacity example3 /\
    isValidIndex h' p = true /\ indexOf h' 2 = Ok p /\
    nodeAt h' p = Ok (mkNode 5 2) /\
    (forall q n, isValidIndex example3 q = true -> nodeAt example3 q = Ok n ->
       exists q', isValidIndex h' q' = true /\ nodeAt h' q' = Ok n /\
                  indexOf h' (id n) = Ok q') /\
    wf h' /\ I3 h'.
Proof.
  split; [vm_compute; reflexivity|].
  apply (insert_lookup example3 5 2); try (vm_compute; reflexivity).
  - apply example3_inv.
  - apply example3_inv.
  - simpl. lia.
Defined.

(** X10.  insert followed by getMin: on a heap that satisfies the
    invariants, after an insert made with its preconditions getMin returns
    the new node when the heap was empty, and otherwise a node whose
    priority is the smaller of the new priority and the priority of the
    former minimum. *)
Theorem insert_then_getMin (h : MinHeap) (pr i : Z) :
  heap_inv h ->
  size h < capacity h -> 0 <= i < capacity h -> id_present h i = false ->
  exists h' r,
    insert h pr i = Ok h' /\ getMin h' = Ok r /\
    (size h = 0 -> r = mkNode pr i) /\
    (forall old, 0 < size h -> getMin h = Ok old ->
       priority r = Z.min pr (priority old)).
Proof.
  intros (Hwf & Hic & Ho)%heap_inv_readers Hroom Hi Hnew.
  pose proof Hwf as (Hsz & Hcap & Ha & Hm).
  destruct (insert_spec h pr i) as (h' & E & Hwf' & Hic' & Ho' & Hs' & Hc' & Hl');
    try done.
  { by apply id_present_false. }
  specialize (Ho' Ho). pose proof Hwf' as (Hsz' & Hcap' & Ha' & Hm').
  exists h', (node h' 1). split; [done|].
  split; [apply (nodeAt_node h' 1); lia|].
  assert (node h' 1 ∈ mkNode pr i :: live_nodes h) as Hroot.
  { rewrite <- Hl'. apply root_live. lia. }
  assert (prio h' 1 <= pr) as Hle.
  { apply (root_le_live h' (mkNode pr i)); [done|]. rewrite Hl'. left. }
  split.
  - intros Hz. unfold live_nodes in Hroot at 1. rewrite Hz in Hroot.
    simpl in Hroot. apply elem_of_cons in Hroot as [-> | Hin]; [done|].
    by apply elem_of_nil in Hin.
  - intros old Hpos Eold. unfold getMin, ROOT_INDEX in Eold.
    fold (nodeAt h 1) in Eold. apply nodeAt_Ok in Eold. subst old.
    assert (prio h' 1 <= prio h 1) as Hle'.
    { apply (root_le_live h' (node h 1)); [done|]. rewrite Hl'. right.
      by apply root_live. }
    fold (prio h' 1). fold (prio h 1).
    apply elem_of_cons in Hroot as [E1 | Hin].
    + unfold prio at 1. rewrite E1. simpl. unfold prio in Hle at 1.
      rewrite E1 in Hle. unfold prio in Hle' at 1. rewrite E1 in Hle'.
      simpl in *. lia.
    + pose proof (root_le_live h (node h' 1) Ho Hin) as Hge.
      fold (prio h' 1) in Hge. lia.
Qed.

Lemma insert_then_getMin_witness :
  getMin example3 = Ok (mkNode 10 0) /\
  exists h' r,
    insert example3 5 2 = Ok h' /\ getMin h' = Ok r /\
    (size example3 = 0 -> r = mkNode 5 2) /\
    (forall old, 0 < size example3 -> getMin example3 = Ok old ->
       priority r = Z.min 5 (priority old)).
Proof.
  split; [vm_compute; reflexivity|].
  apply (insert_then_getMin example3 5 2); try (vm_compute; reflexivity).
  - apply example3_inv.
  - simpl. lia.
Defined.

(** X11.  insert followed by extractMin, in a heap of a capacity below
    2^30 = 1073741824: when the new priority is strictly smaller than
    every priority in the heap, extractMin right after the insert returns
    exactly the node just inserted, and leaves a heap of the former size
    that holds the former nodes and satisfies the invariants. *)
Theorem insert_minimum_then_extractMin (h : MinHeap) (pr i : Z) :
  capacity h < 1073741824 ->
  heap_inv h ->
  size h < capacity h -> 0 <= i < capacity h -> id_present h i = false ->
  (forall p x, isValidIndex h p = true -> priorityAt h p = Ok x -> pr < x) ->
  exists h1 h2,
    insert h pr i = Ok h1 /\
    extractMin h1 = Ok (mkNode pr i, h2) /\
    size h2 = size h /\
    live_nodes h2 ≡ₚ live_nodes h /\
    heap_inv h2.
Proof.
  intros Hfit (Hwf & Hic & Ho)%heap_inv_readers Hroom Hi Hnew Hmin.
  pose proof Hwf as (Hsz & Hcap & Ha & Hm).
  destruct (insert_spec h pr i) as (h1 & E & Hwf1 & Hic1 & Ho1 & Hs1 & Hc1 & Hl1);
    try done.
  { by apply id_present_false. }
  specialize (Ho1 Ho).
  destruct (extractMin_spec h1)
    as (h2 & E2 & Hwf2 & Hic2 & Ho2 & Hs2 & Hc2 & _ & Hl2);
    try done; [unfold INT_MAX; lia | lia |].
  assert (node h1 1 = mkNode pr i) as Eroot.
  { assert (node h1 1 ∈ mkNode pr i :: live_nodes h) as Hroot.
    { rewrite <- Hl1. apply root_live. lia. }
    apply elem_of_cons in Hroot as [-> | Hin]; [done|]. exfalso.
    assert (prio h1 1 <= pr) as Hle.
    { apply (root_le_live h1 (mkNode pr i)); [done|]. rewrite Hl1. left. }
    apply elem_of_live_nodes in Hin as (q & Hq & Eq).
    specialize (Hmin q (prio h q)). unfold prio in Hle at 1.
    rewrite Eq in Hle. fold (prio h q) in Hle.
    assert (pr < prio h q); [|lia].
    apply Hmin; [by apply isValidIndex_spec | apply priorityAt_prio; lia]. }
  rewrite Eroot in *.
  exists h1, h2. do 2 (split; [done|]). split; [lia|]. split.
  - apply (inj (cons (mkNode pr i))). by rewrite <- Hl2, Hl1.
  - apply heap_inv_readers. auto.
Qed.

Lemma insert_minimum_then_extractMin_witness :
  getMin example3 = Ok (mkNode 10 0) /\
  exists h1 h2,
    insert example3 5 2 = Ok h1 /\
    extractMin h1 = Ok (mkNode 5 2, h2) /\
    size h2 = size example3 /\
    live_nodes h2 ≡ₚ live_nodes example3 /\
    heap_inv h2.
Proof.
  split; [vm_compute; reflexivity|].
  apply (insert_minimum_then_extractMin example3 5 2);
    try (vm_compute; reflexivity).
  - apply example3_inv.
  - simpl. lia.
  - intros p x Hp%isValidIndex_spec Hx. simpl in Hp.
    assert (p = 1 \/ p = 2) as [-> | ->] by lia;
      vm_compute in Hx; injection Hx as <-; lia.
Defined.

(** X12.  extractMin, on a non-empty well-formed heap with a consistent
    index map and a capacity below 2^30 = 1073741824, removes exactly the
    node it returns: the id of that node is stored at no live position
    afterwards, the nodes left are the former nodes without it, and the
    index map is consistent again. *)
Theorem extractMin_removes (h : MinHeap) :
  capacity h < 1073741824 -> wf h -> I3 h -> 0 < size h ->
  exists root h',
    extractMin h = Ok (root, h') /\
    id_present h' (id root) = false /\
    live_nodes h ≡ₚ root :: live_nodes h' /\
    wf h' /\ I3 h'.
Proof.
  intros Hfit Hwf Hic%I3_index_consistent Hs; [|done].
  pose proof Hwf as (Hsz & _).
  destruct (extractMin_spec h) as (h' & E & Hwf' & Hic' & _ & _ & _ & Hp' & Hl');
    try done; [unfold INT_MAX; lia|].
  exists (node h 1), h'. split; [done|]. split.
  - apply id_present_absent. intros p Hp%isValidIndex_spec Ep.
    apply idAt_Ok in Ep. destruct (Hic' p Hp) as [_ Hpos].
    rewrite <- Ep, Hp' in Hpos. lia.
  - split; [done|]. split; [done | by apply index_consistent_I3].
Qed.

Lemma extractMin_removes_witness :
  exists root h',
    extractMin example2 = Ok (root, h') /\
    id_present h' (id root) = false /\
    live_nodes example2 ≡ₚ root :: live_nodes h' /\
    wf h' /\ I3 h'.
Proof.
  apply (extractMin_removes example2).
  - simpl. lia.
  - apply example2_inv.
  - apply example2_inv.
  - simpl. lia.
Defined.

(** What the sift-down leaves alone, in any state: the size and the nodes
    at the positions that are not valid indices. *)

Lemma swap_outside (h h' : MinHeap) (i j : Z) :
  swap h i j = Ok h' ->
  size h' = size h /\
  forall p, isValidIndex h p = false -> nodeAt h' p = nodeAt h p.
Proof.
  intros [[Hv ->] | (Hv & Hi & Hj & Hki & Hkj & ->)]%swap_inv; [done|].
  split; [done|]. intros p Hp. unfold nodeAt. simpl.
  apply andb_prop in Hv as [Hvi Hvj].
  rewrite load_store by (rewrite length_insert; lia).
  destruct (Z.eqb_spec p j) as [->|_]; [congruence|].
  rewrite load_store by lia.
  destruct (Z.eqb_spec p i) as [->|_]; [congruence | done].
Qed.

Lemma bubbleDown_body_outside (h h' : MinHeap) (k left right : Z) :
  bubbleDown_body h k left right = Ok (Some h') ->
  size h' = size h /\
  forall p, isValidIndex h p = false -> nodeAt h' p = nodeAt h p.
Proof.
  unfold bubbleDown_body. intros H. inv_bind H. revert H.
  repeat match goal with
  | |- context [if ?b then _ else _] => destruct b
  | |- bind _ _ = Ok _ -> _ => intros H; inv_bind H; revert H
  end;
  try discriminate; intros [= <-]; eauto using swap_outside.
Qed.

Lemma bubbleDown_loop_outside (fuel : nat) :
  forall (h h' : MinHeap) (k left right : Z),
  bubbleDown_loop fuel h k left right = Ok h' ->
  size h' = size h /\
  forall p, isValidIndex h p = false -> nodeAt h' p = nodeAt h p.
Proof.
  induction fuel as [|fuel IH]; intros h h' k left right;
    rewrite bubbleDown_loop_eq; destruct (left =? NOTHING);
    try (intros [= <-]; done); try discriminate.
  intros H. inv_bind H. destruct x as [h1|]; [|by injection H as <-].
  inv_bind H. apply IH in H as [Hs Hn].
  apply bubbleDown_body_outside in Hx as [Hs1 Hn1].
  split; [congruence|]. intros p Hp. rewrite Hn, Hn1; [done | done |].
  unfold isValidIndex in *. by rewrite Hs1.
Qed.

Lemma bubbleDown_outside (h h' : MinHeap) :
  bubbleDown h = Ok h' ->
  size h' = size h /\
  forall p, isValidIndex h p = false -> nodeAt h' p = nodeAt h p.
Proof.
  unfold bubbleDown. destruct (size h >? 0); [|by intros [= <-]].
  intros H. inv_bind H. by apply bubbleDown_loop_outside in H.
Qed.

Lemma extractMin_stale (h h' : MinHeap) (save : HeapNode) :
  0 < size h <= INT_MAX -> extractMin h = Ok (save, h') ->
  nodeAt h' (size h) = Ok save.
Proof.
  intros Hs E. unfold extractMin in E. inv_bind E. injection E as Esave <-.
  apply swap_outside in Hx as [Hsx _].
  apply set_indexMap_Ok in Hx2 as [_ ->].
  apply int_of_Ok in Hx3 as [-> _].
  apply bubbleDown_outside in Hx4 as [_ Hn]. simpl in Hn.
  rewrite Hsx in *.
  rewrite Hn by (apply isValidIndex_false; simpl; lia).
  unfold nodeAt at 1. simpl. fold (nodeAt x (size h)). congruence.
Qed.

(** X13.  The remark in extractMin, "removed node is still printed": after
    extractMin on a non-empty heap (of a capacity below
    2^30 = 1073741824), the node it returned is still stored in the node
    array, at the position that was the last one, which is no longer a
    valid index. *)
Theorem extractMin_leaves_node_in_array (h : MinHeap) :
  capacity h < 1073741824 -> wf h -> I3 h -> 0 < size h ->
  exists save h',
    extractMin h = Ok (save, h') /\
    nodeAt h' (size h) = Ok save /\
    isValidIndex h' (size h) = false.
Proof.
  intros Hfit Hwf Hic%I3_index_consistent Hs; [|done].
  pose proof Hwf as (Hsz & Hcap & Ha & Hm).
  destruct (extractMin_spec h) as (h' & E & _ & _ & _ & Hs' & _);
    try done; [unfold INT_MAX; lia|].
  exists (node h 1), h'. split; [done|].
  split; [|apply isValidIndex_false; lia].
  apply extractMin_stale; [|done]. unfold INT_MAX in *. lia.
Qed.

Lemma extractMin_leaves_node_in_array_witness :
  exists save h',
    extractMin example2 = Ok (save, h') /\
    nodeAt h' (size example2) = Ok save /\
    isValidIndex h' (size example2) = false.
Proof.
  apply (extractMin_leaves_node_in_array example2).
  - simpl. lia.
  - apply example2_inv.
  - apply example2_inv.
  - simpl. lia.
Defined.

(** ** Calls outside of the preconditions *)

Lemma insert_full_undefined (h : MinHeap) (pr i : Z) :
  wf h -> size h = capacity h -> insert h pr i = Undefined.
Proof.
  intros (Hsz & Hcap & Ha & Hm) Hfull.
  assert (int_of (size h + 1) = Ok (size h + 1)) as Hw.
  { apply int_of_in_range. unfold in_int, INT_MIN, INT_MAX in *. lia. }
  unfold insert. rewrite Hw. simpl. unfold set_arr, store.
  destruct (Z.leb_spec 0 (size h + 1)); [|lia].
  destruct (Z.ltb_spec (size h + 1) (Z.of_nat (length (arr h)))); simpl;
    [lia | done].
Qed.

(** X14.  insert does not check its preconditions: on a well-formed heap
    that is full, or with an id outside of [0, capacity), it writes
    outside of the node array, or of the index map, which is undefined
    behaviour. *)
Theorem insert_out_of_bounds (h : MinHeap) (pr i : Z) :
  wf h ->
  size h = capacity h \/ i < 0 \/ capacity h <= i ->
  insert h pr i = Undefined.
Proof.
  intros Hwf [Hfull | Hbad]; [by apply insert_full_undefined|].
  destruct (Z.eq_dec (size h) (capacity h)) as [Hfull | Hroom];
    [by apply insert_full_undefined|].
  destruct Hwf as (Hsz & Hcap & Ha & Hm).
  assert (int_of (size h + 1) = Ok (size h + 1)) as Hw.
  { apply int_of_in_range. unfold in_int, INT_MIN, INT_MAX in *. lia. }
  unfold insert. rewrite Hw. simpl. rewrite set_arr_in_range by lia. simpl.
  rewrite Hw. simpl. unfold set_indexMap, store. simpl.
  destruct (Z.leb_spec 0 i); [|done].
  destruct (Z.ltb_spec i (Z.of_nat (length (indexMap h)))); simpl; [lia | done].
Qed.

Lemma insert_out_of_bounds_witness :
  insert example2 5 0 = Undefined /\ insert (fresh 2) 5 2 = Undefined.
Proof.
  split.
  - apply (insert_out_of_bounds example2 5 0).
    + apply example2_inv.
    + left. reflexivity.
  - apply (insert_out_of_bounds (fresh 2) 5 2).
    + unfold wf, INT_MAX. simpl. lia.
    + right. right. simpl. lia.
Defined.

(** X15.  extractMin does not check that the heap is non-empty: on an
    empty well-formed heap it returns the content of the unused slot 0 of
    the node array, writes 0 to the index-map entry of the id found there
    (undefined behaviour when that id is outside of [0, capacity)), and
    leaves the heap with size -1. *)
Theorem extractMin_empty (h : MinHeap) :
  wf h -> size h = 0 ->
  exists n,
    nodeAt h 0 = Ok n /\
    extractMin h =
      if (0 <=? id n) && (id n <? capacity h) then
        Ok (n, mkHeap (-1) (capacity h) (arr h)
                 (<[Z.to_nat (id n) := 0]> (indexMap h)))
      else Undefined.
Proof.
  intros (Hsz & Hcap & Ha & Hm) Hs. exists (node h 0).
  split; [apply nodeAt_node; lia|].
  unfold extractMin, swap, isValidIndex, ROOT_INDEX. rewrite Hs. simpl.
  rewrite Hs. rewrite nodeAt_node, idAt_id by lia. simpl.
  unfold set_indexMap, store. rewrite Hm.
  destruct ((0 <=? id (node h 0)) && (id (node h 0) <? capacity h)); [|done].
  simpl. unfold set_size, bubbleDown. simpl. rewrite Hs. done.
Qed.

Lemma extractMin_empty_witness :
  exists n,
    nodeAt (fresh 2) 0 = Ok n /\
    extractMin (fresh 2) =
      if (0 <=? id n) && (id n <? capacity (fresh 2)) then
        Ok (n, mkHeap (-1) (capacity (fresh 2)) (arr (fresh 2))
                 (<[Z.to_nat (id n) := 0]> (indexMap (fresh 2))))
      else Undefined.
Proof.
  apply (extractMin_empty (fresh 2)).
  - unfold wf, INT_MAX. simpl. lia.
  - reflexivity.
Defined.

(** X16.  Capacity exhaustion: inserting as many nodes of distinct legal
    ids as the capacity into a new heap succeeds and leaves the size equal
    to the capacity; any further insert, whatever its arguments, writes
    outside of the node array. *)
Theorem capacity_exhaustion
    (c : Z) (a : list HeapNode) (m : list Z) (items : list (Z * Z)) :
  allocated c a m ->
  Z.of_nat (length items) = c ->
  NoDup (snd <$> items) ->
  Forall (fun it => 0 <= snd it < c) items ->
  exists h,
    insert_all (newHeap c a m) items = Ok h /\
    size h = capacity h /\ capacity h = c /\
    forall pr i, insert h pr i = Undefined.
Proof.
  intros Halloc Hlen Hnd Hids.
  destruct (newHeap_inv c a m Halloc) as (Hwf & Hic & Ho).
  destruct (insert_all_spec items (newHeap c a m))
    as (h & E & Hwf1 & _ & _ & Hs1 & Hc1 & _); try done; try (simpl; lia).
  simpl in *. exists h. split; [done|]. split; [lia|]. split; [done|].
  intros pr i. apply insert_full_undefined; [done | lia].
Qed.

Lemma capacity_exhaustion_witness :
  exists h,
    insert_all (fresh 2) [(10, 0); (20, 1)] = Ok h /\
    size h = capacity h /\ capacity h = 2 /\
    forall pr i, insert h pr i = Undefined.
Proof.
  apply (capacity_exhaustion 2 (replicate 3 (mkNode 0 0)) (replicate 2 0)
           [(10, 0); (20, 1)]).
  - unfold allocated, INT_MAX. simpl. lia.
  - reflexivity.
  - apply (bool_decide_unpack _). vm_compute. exact I.
  - repeat constructor; simpl; lia.
Defined.

(** ** Sifting, further *)

(** X17.  bubbleUp changes nothing in a heap that is in heap order,
    whatever the position it is given. *)
Theorem bubbleUp_ordered_noop (h : MinHeap) (p : Z) :
  wf h -> I1 h -> bubbleUp h p = Ok h.
Proof.
  intros (Hsz & Hcap & Ha & Hm) Ho%I1_heap_ordered.
  unfold bubbleUp. cbn [bubbleUp_rec].
  destruct (size h =? 0); [done|].
  rewrite parentIdx_spec.
  destruct (Z.ltb_spec 1 p); destruct (Z.leb_spec p (size h)); simpl;
    try done.
  destruct (Z.eqb_spec (p / 2) NOTHING); [done|].
  rewrite idAt_id by lia. simpl.
  rewrite !priorityAt_prio by zlia. simpl.
  destruct (Z.gtb_spec (prio h (p / 2)) (prio h p)) as [Hgt|_]; [|done].
  specialize (Ho p). lia.
Qed.

Lemma bubbleUp_ordered_noop_witness : bubbleUp example2 2 = Ok example2.
Proof.
  apply (bubbleUp_ordered_noop example2 2).
  - apply example2_inv.
  - apply example2_inv.
Defined.

(** X18.  bubbleDown changes nothing in a heap that satisfies the
    invariants: the root is already at most its children. *)
Theorem bubbleDown_ordered_noop (h : MinHeap) :
  heap_inv h -> bubbleDown h = Ok h.
Proof.
  intros (Hwf & Hic & Ho)%heap_inv_readers.
  pose proof Hwf as (Hsz & Hcap & Ha & Hm).
  unfold bubbleDown, ROOT_INDEX.
  destruct (Z.gtb_spec (size h) 0) as [Hpos|_]; [|done].
  rewrite idAt_id by lia. simpl.
  rewrite leftIdx_cases, rightIdx_cases.
  rewrite (proj2 (isValidIndex_spec h 1)) by lia. simpl.
  rewrite bubbleDown_loop_eq.
  destruct (Z.eqb_spec (left_pos h 1) NOTHING) as [_|Hl]; [done|].
  assert (2 * 1 <= size h) as Hleft.
  { unfold left_pos in Hl. by destruct (Z.leb_spec (2 * 1) (size h)). }
  destruct (Z.to_nat (size h)) as [|fuel] eqn:Efuel; [lia|].
  rewrite bubbleDown_body_eq by (done || lia).
  destruct (Z.gtb_spec (prio h 1) (prio h (smaller_child h 1))) as [Hgt|_];
    [|done].
  destruct (smaller_child_cases h 1) as [E | [E Hr]]; rewrite E in Hgt.
  - specialize (Ho (2 * 1)). replace (2 * 1 / 2) with 1 in Ho by zlia. lia.
  - specialize (Ho (2 * 1 + 1)). replace ((2 * 1 + 1) / 2) with 1 in Ho by zlia.
    lia.
Qed.

Lemma bubbleDown_ordered_noop_witness : bubbleDown example2 = Ok example2.
Proof. apply (bubbleDown_ordered_noop example2). exact example2_inv. Defined.

Lemma bubbleUp_rec_fuel_le (n m : nat) (h : MinHeap) (i : Z) :
  (n <= m)%nat -> bubbleUp_rec n h i <> OutOfFuel ->
  bubbleUp_rec m h i = bubbleUp_rec n h i.
Proof.
  intros Hle Hret. induction Hle as [|m Hle IH]; [done|].
  rewrite bubbleUp_rec_more_fuel; [done|]. by rewrite IH.
Qed.

Lemma bubbleDown_loop_fuel_le (n m : nat) (h : MinHeap) (k left right : Z) :
  (n <= m)%nat -> bubbleDown_loop n h k left right <> OutOfFuel ->
  bubbleDown_loop m h k left right = bubbleDown_loop n h k left right.
Proof.
  intros Hle Hret. induction Hle as [|m Hle IH]; [done|].
  rewrite bubbleDown_loop_more_fuel; [done|]. by rewrite IH.
Qed.

Lemma log2_half (i : Z) : 1 < i -> Z.log2 (i / 2) = Z.log2 i - 1.
Proof.
  intros Hi.
  assert (i = 2 * (i / 2) \/ i = 2 * (i / 2) + 1) as [E|E] by zlia;
    rewrite E at 2.
  - rewrite Z.log2_double by zlia. lia.
  - rewrite Z.log2_succ_double by zlia. lia.
Qed.

Lemma bubbleUp_rec_log_returns (fuel : nat) : forall (h : MinHeap) (i : Z),
  (Z.to_nat (Z.log2 i) < fuel)%nat -> bubbleUp_rec fuel h i <> OutOfFuel.
Proof.
  induction fuel as [|fuel IH]; intros h i Hfuel; [lia|].
  simpl. destruct (size h =? 0); [done|].
  rewrite parentIdx_spec.
  destruct (Z.ltb_spec 1 i) as [Hi|Hi]; simpl; [|done].
  destruct (Z.leb_spec i (size h)) as [Hs|Hs]; simpl; [|done].
  destruct (Z.eqb_spec (i / 2) NOTHING); [done|].
  destruct (idAt h i) as [k| |] eqn:Ek; simpl; [|done|by destruct (idAt_returns h i)].
  apply bind_returns; [apply priorityAt_returns | intros pp].
  apply bind_returns; [apply priorityAt_returns | intros pn].
  destruct (pp >? pn); [|done].
  destruct (swap h (i / 2) i) as [h'| |] eqn:Es; simpl;
    [|done|by destruct (swap_returns h (i / 2) i)].
  destruct (swap_indexOf h h' (i / 2) i k) as [-> _]; try done.
  - apply isValidIndex_spec. zlia.
  - apply isValidIndex_spec. lia.
  - simpl. apply IH. rewrite log2_half by done.
    pose proof (Z.log2_pos i Hi). lia.
Qed.

(** X19.  bubbleUp ends in every state of the heap, well-formed or not,
    and the depth of its recursion is at most [log2 nodeIndex + 1]: with
    that much fuel the outcome is the one of [bubbleUp], which is never
    [OutOfFuel]. *)
Theorem bubbleUp_logarithmic (h : MinHeap) (nodeIndex : Z) :
  bubbleUp h nodeIndex <> OutOfFuel /\
  bubbleUp_rec (S (Z.to_nat (Z.log2 nodeIndex))) h nodeIndex = bubbleUp h nodeIndex.
Proof.
  split; [apply bubbleUp_rec_returns; lia|].
  unfold bubbleUp. symmetry. apply bubbleUp_rec_fuel_le.
  - destruct (Z.le_gt_cases nodeIndex 0).
    + rewrite Z.log2_nonpos by done. lia.
    + pose proof (Z.log2_le_lin nodeIndex). lia.
  - apply bubbleUp_rec_log_returns. lia.
Qed.

Lemma bubbleDown_loop_log_returns (fuel : nat) : forall (h : MinHeap) (k : Z),
  2 * size h + 1 <= INT_MAX ->
  wf h -> index_consistent h -> 1 <= k <= size h ->
  (Z.to_nat (Z.log2 (size h) - Z.log2 k) <= fuel)%nat ->
  bubbleDown_loop fuel h (id (node h k)) (left_pos h k) (right_pos h k)
    <> OutOfFuel.
Proof.
  induction fuel as [|fuel IH]; intros h k Hfit Hwf Hic Hk Hfuel;
    pose proof Hwf as (Hsz & Hcap & Ha & Hm);
    rewrite bubbleDown_loop_eq;
    destruct (Z.eqb_spec (left_pos h k) NOTHING) as [Hl|Hl]; try done;
    assert (2 * k <= size h) as Hleft
      by (unfold left_pos in Hl;
          destruct (Z.leb_spec (2 * k) (size h)); [lia | done]);
    pose proof (Z.log2_le_mono (2 * k) (size h) Hleft) as Hlog;
    rewrite Z.log2_double in Hlog by lia; [lia|].
  rewrite bubbleDown_body_eq by (done || lia).
  set (c := smaller_child h k).
  destruct (Z.gtb_spec (prio h k) (prio h c)) as [Hgt|Hle]; simpl; [|done].
  assert (1 < c <= size h /\ c / 2 = k) as [Hc Ec].
  { destruct (smaller_child_cases h k) as [E|[E ?]]; fold c in E; zlia. }
  destruct (swap_ok h k c) as (h1 & -> & Hsw); try done; [lia|]. simpl.
  assert (1 <= c <= size h) as Hc' by lia.
  pose proof (swapped_rearranged h h1 k c Hk Hc' Hsw) as Hre.
  pose proof (rearranged_wf h h1 Hwf Hre) as Hwf1.
  pose proof (swapped_index_consistent h h1 k c Hic Hk Hc' Hsw) as Hic1.
  pose proof Hsw as (Hs1 & Hc1 & Ha1 & Hm1 & Hn1 & Hp1).
  destruct (Hic k Hk) as [Hidk _].
  rewrite indexOf_pos by lia. simpl.
  assert (pos h1 (id (node h k)) = c /\ id (node h1 c) = id (node h k))
    as [Epos Eid].
  { rewrite Hp1, Hn1, !Z.eqb_refl.
    destruct (Z.eqb_spec (id (node h k)) (id (node h c))) as [E|_].
    - apply (ids_inj h) in E; [zlia | done | done | lia].
    - done. }
  rewrite Epos, leftIdx_spec, rightIdx_spec by lia. simpl. rewrite <- Eid.
  apply IH; try done; [lia | lia |].
  rewrite Hs1. pose proof (log2_half c) as Hhalf. rewrite Ec in Hhalf. lia.
Qed.

(** X20.  On a non-empty well-formed heap with a consistent index map
    and a capacity below 2^30 = 1073741824, bubbleDown returns after at
    most [log2 size] passes through its loop: the loop, entered with the
    id at the root and the two children of the root and run with that
    much fuel, has the outcome of [bubbleDown]. *)
Theorem bubbleDown_logarithmic (h : MinHeap) :
  capacity h < 1073741824 -> wf h -> I3 h -> 0 < size h ->
  exists k left right h',
    idAt h ROOT_INDEX = Ok k /\
    leftIdx h ROOT_INDEX = Ok left /\
    rightIdx h ROOT_INDEX = Ok right /\
    bubbleDown h = Ok h' /\
    bubbleDown_loop (Z.to_nat (Z.log2 (size h))) h k left right = Ok h'.
Proof.
  intros Hfit Hwf Hic%I3_index_consistent Hs; [|done].
  pose proof Hwf as (Hsz & Hcap & Ha & Hm).
  assert (2 * size h + 1 <= INT_MAX) as Hfit' by (unfold INT_MAX; lia).
  destruct (bubbleDown_spec h) as (h' & E & _); try done.
  exists (id (node h 1)), (left_pos h 1), (right_pos h 1), h'. unfold ROOT_INDEX.
  split; [apply idAt_id; lia|].
  split; [apply leftIdx_spec; [done | lia]|].
  split; [apply rightIdx_spec; [done | lia]|].
  split; [done|].
  unfold bubbleDown, ROOT_INDEX in E.
  destruct (Z.gtb_spec (size h) 0); [|lia].
  rewrite idAt_id in E by lia. simpl in E.
  rewrite leftIdx_spec, rightIdx_spec in E by lia. simpl in E. rewrite <- E.
  symmetry. apply bubbleDown_loop_fuel_le.
  - pose proof (Z.log2_le_lin (size h)). lia.
  - apply bubbleDown_loop_log_returns; try done; [lia|].
    replace (Z.log2 1) with 0 by done. lia.
Qed.

Lemma bubbleDown_logarithmic_witness :
  exists k left right h',
    idAt tie_heap ROOT_INDEX = Ok k /\
    leftIdx tie_heap ROOT_INDEX = Ok left /\
    rightIdx tie_heap ROOT_INDEX = Ok right /\
    bubbleDown tie_heap = Ok h' /\
    bubbleDown_loop (Z.to_nat (Z.log2 (size tie_heap))) tie_heap k left right
      = Ok h'.
Proof.
  apply (bubbleDown_logarithmic tie_heap).
  - simpl. lia.
  - unfold wf, INT_MAX. simpl. lia.
  - intros p Hp%isValidIndex_spec. simpl in Hp.
    assert (p = 1 \/ p = 2 \/ p = 3) as [-> | [-> | ->]] by lia;
      eexists; (split; [vm_compute; reflexivity|]);
      (split; [vm_compute; reflexivity|]);
      intros q Hq%isValidIndex_spec; simpl in Hq;
      (assert (q = 1 \/ q = 2 \/ q = 3) as [-> | [-> | ->]] by lia);
      vm_compute; congruence.
  - simpl. lia.
Defined.

(** ** printHeap *)

Lemma printHeap_row_ok (h : MinHeap) (i : Z) :
  wf h -> 0 <= i < capacity h ->
  exists rest,
    printHeap_row h i =
    Ok (node_text i (prio h i) (id (node h i)) +:+ rest).
Proof.
  intros (Hsz & Hcap & Ha & Hm) Hi. unfold printHeap_row.
  rewrite priorityAt_prio, idAt_id, indexOf_pos by lia. simpl. eauto.
Qed.

Lemma printHeap_rows_ok (h : MinHeap) (idxs : list Z) :
  wf h -> Forall (fun i => 0 <= i < capacity h) idxs ->
  exists rows,
    printHeap_rows h idxs = Ok rows /\
    length rows = length idxs /\
    forall n i, idxs !! n = Some i ->
      exists rest,
        rows !! n = Some (node_text i (prio h i) (id (node h i)) +:+ rest).
Proof.
  intros Hwf. induction idxs as [|i idxs IH]; intros Hall; simpl.
  - exists []. repeat split; try done.
  - apply Forall_cons in Hall as [Hi Hall].
    destruct (printHeap_row_ok h i Hwf Hi) as (rest & ->).
    destruct (IH Hall) as (rows & -> & Hlen & Hrows). simpl.
    eexists. split; [done|]. split; [simpl; lia|].
    intros [|n] j Hj; simpl in *.
    + injection Hj as <-. by exists rest.
    + by apply Hrows.
Qed.

Lemma printHeap_line (h : MinHeap) :
  wf h ->
  exists out,
    printHeap h = Ok out /\
    length out = (Z.to_nat (capacity h) + 4)%nat /\
    forall i, 0 <= i <= capacity h ->
      exists rest,
        out !! (2 + Z.to_nat i)%nat =
        Some (node_text i (prio h i) (id (node h i)) +:+ rest).
Proof.
  intros Hwf. pose proof Hwf as (Hsz & Hcap & Ha & Hm).
  destruct (printHeap_rows_ok h (seqZ 0 (capacity h)) Hwf)
    as (rows & E & Hlen & Hrows).
  { apply Forall_seqZ. lia. }
  rewrite length_seqZ in Hlen.
  unfold printHeap. rewrite E. simpl.
  rewrite priorityAt_prio, idAt_id by lia. simpl.
  eexists. split; [done|]. split.
  { simpl. rewrite length_app. simpl. lia. }
  intros i Hi. simpl.
  destruct (Z.eq_dec i (capacity h)) as [->|Hne].
  - rewrite lookup_app_r by lia.
    replace (Z.to_nat (capacity h) - length rows)%nat with 0%nat by lia.
    simpl. eauto.
  - rewrite lookup_app_l by lia. apply Hrows.
    apply lookup_seqZ. lia.
Qed.

(** X21.  printHeap reads only inside the two arrays of a well-formed
    heap, also one that newHeap has just returned: it writes
    [capacity + 4] strings, and for every slot i from 0 to the capacity,
    live or not, the string after the two header lines at place i starts
    with i, the priority and the id stored in slot i. *)
Theorem printHeap_reads_every_slot (h : MinHeap) :
  wf h ->
  exists out,
    printHeap h = Ok out /\
    length out = (Z.to_nat (capacity h) + 4)%nat /\
    forall i p k, 0 <= i <= capacity h ->
      priorityAt h i = Ok p -> idAt h i = Ok k ->
      exists rest, out !! (2 + Z.to_nat i)%nat = Some (node_text i p k +:+ rest).
Proof.
  intros Hwf. destruct (printHeap_line h Hwf) as (out & E & Hlen & Hline).
  exists out. do 2 (split; [done|]).
  intros i p k Hi Ep%priorityAt_Ok Ek%idAt_Ok. subst p k. by apply Hline.
Qed.

Lemma printHeap_reads_every_slot_witness :
  exists out,
    printHeap example2 = Ok out /\
    length out = (Z.to_nat (capacity example2) + 4)%nat /\
    forall i p k, 0 <= i <= capacity example2 ->
      priorityAt example2 i = Ok p -> idAt example2 i = Ok k ->
      exists rest, out !! (2 + Z.to_nat i)%nat = Some (node_text i p k +:+ rest).
Proof.
  apply (printHeap_reads_every_slot example2). apply example2_inv.
Defined.

(** X22.  The remark in extractMin, "removed node is still printed": after
    extractMin on a non-empty heap (of a capacity below
    2^30 = 1073741824), printHeap still writes the node that was removed,
    on the line of the position that was the last one. *)
Theorem printHeap_shows_removed_node (h : MinHeap) :
  capacity h < 1073741824 -> wf h -> I3 h -> 0 < size h ->
  exists save h' out rest,
    extractMin h = Ok (save, h') /\
    printHeap h' = Ok out /\
    out !! (2 + Z.to_nat (size h))%nat =
      Some (node_text (size h) (priority save) (id save) +:+ rest).
Proof.
  intros Hfit Hwf Hic%I3_index_consistent Hs; [|done].
  pose proof Hwf as (Hsz & Hcap & Ha & Hm).
  destruct (extractMin_spec h) as (h' & E & Hwf' & _ & _ & Hs' & Hc' & _);
    try done; [unfold INT_MAX; lia|].
  destruct (printHeap_line h' Hwf') as (out & Eout & _ & Hline).
  destruct (Hline (size h)) as (rest & Hrest); [lia|].
  exists (node h 1), h', out, rest. do 2 (split; [done|]).
  assert (node h' (size h) = node h 1) as Estale.
  { symmetry. apply nodeAt_Ok, extractMin_stale; [|done].
    unfold INT_MAX in *. lia. }
  rewrite Hrest. unfold prio. by rewrite Estale.
Qed.

Lemma printHeap_shows_removed_node_witness :
  exists save h' out rest,
    extractMin example2 = Ok (save, h') /\
    printHeap h' = Ok out /\
    out !! (2 + Z.to_nat (size example2))%nat =
      Some (node_text (size example2) (priority save) (id save) +:+ rest).
Proof.
  apply (printHeap_shows_removed_node example2).
  - simpl. lia.
  - apply example2_inv.
  - apply example2_inv.
  - simpl. lia.
Defined.

End Heap.
